(** * Rotating ASCII renderer: the generated script and its exporter

    A shallow embedding of the program emitted by
    [RotatingASCIIOperator.execute] (the rotating wireframe renderer) and of
    the checks the exporter performs before emitting it.

    Number model.  Python [int] is [Z].  Python [float] is modelled by exact
    arithmetic: rationals [Q] wherever the script only adds, multiplies,
    divides and truncates, and the reals [R] for [rotate_point], which needs
    [math.cos] and [math.sin].  Rounding error of binary64 is therefore not
    part of the model; the concrete inputs used below are dyadic, so that
    binary64 computes them exactly as well.

    Effects.  An exception is a value of [outcome]; a [while True] loop
    takes fuel.  The frame written to [sys.stdout] is a string.  Clearing
    the screen, [time.sleep], the keyboard interrupt and the final
    [input()] prompt are left out.

    The operator of [pixel2cube.py], which turns the pixels of an image
    into one mesh of colored cubes, is embedded in the module
    [PixelCubes]. *)

From Stdlib Require Import ZArith QArith Qround Qabs Reals Lia Lqa Lra Psatz.
From Stdlib Require Import Ascii String SpecFloat.
From stdpp Require Import base option list strings pretty gmap.

Local Open Scope Z_scope.

(** ** Python primitives *)

(** [int(f)] on a float: truncation toward zero. *)
Definition py_int (q : Q) : Z := Z.quot (Qnum q) (Zpos (Qden q)).

(** ** The rasterizer: [bresenham] *)

Definition color : Type := Z * Z * Z.

(** An emitted point: [(x, y)] or [(x, y, (cr, cg, cb))]. *)
Definition point : Type := (Z * Z) * option color.

(** [int(c1 + fraction * (c2 - c1))] with [fraction = k / steps]. *)
Definition channel (c1 c2 k steps : Z) : Z :=
  py_int (inject_Z c1 + (inject_Z k / inject_Z steps) * inject_Z (c2 - c1))%Q.

(** The locals of [bresenham] that the loop only reads. *)
Record line_env := {
  x2 : Z; y2 : Z;
  dx : Z; dy : Z;
  sx : Z; sy : Z;
  steps : Z;
  color1 : option color;
  color2 : option color
}.

(** The locals the loop writes. *)
Record loop_state := {
  points : list point;
  current_x : Z;
  current_y : Z;
  err : Z;
  k : Z
}.

Section Loop.
Variable E : line_env.

(** [use_col = color1 is not None and color2 is not None] *)
Definition use_col : bool :=
  match color1 E, color2 E with
  | Some _, Some _ => true
  | _, _ => false
  end.

(** The tuple appended to [points] at the top of an iteration. *)
Definition emit (st : loop_state) : point :=
  match use_col, color1 E, color2 E with
  | true, Some (r1, g1, b1), Some (r2, g2, b2) =>
      ((current_x st, current_y st),
       Some (channel r1 r2 (k st) (steps E),
             channel g1 g2 (k st) (steps E),
             channel b1 b2 (k st) (steps E)))
  | _, _, _ => ((current_x st, current_y st), None)
  end.

(** [current_x == x2 and current_y == y2] *)
Definition at_target (st : loop_state) : bool :=
  (current_x st =? x2 E) && (current_y st =? y2 E).

(** The rest of the body, after the [break] test failed. *)
Definition advance (st : loop_state) : loop_state :=
  let e2 := 2 * err st in
  let '(err1, cx) :=
    if e2 >? - dy E then (err st - dy E, current_x st + sx E)
    else (err st, current_x st) in
  let '(err2, cy) :=
    if e2 <? dx E then (err1 + dx E, current_y st + sy E)
    else (err1, current_y st) in
  {| points := points st ++ [emit st];
     current_x := cx; current_y := cy; err := err2; k := k st + 1 |}.

(** One pass through the body of [while True]; the flag says [break]. *)
Definition loop_body (st : loop_state) : loop_state * bool :=
  if at_target st then
    ({| points := points st ++ [emit st];
        current_x := current_x st; current_y := current_y st;
        err := err st; k := k st |}, true)
  else (advance st, false).

(** [while True: ...], with [None] when the fuel runs out first. *)
Fixpoint while_true (fuel : nat) (st : loop_state) : option loop_state :=
  match fuel with
  | O => None
  | S fuel' =>
      let '(st', brk) := loop_body st in
      if brk then Some st' else while_true fuel' st'
  end.
End Loop.

Definition line_env_of (x1 y1 x2 y2 : Z) (color1 color2 : option color) : line_env :=
  let dx := Z.abs (x2 - x1) in
  let dy := Z.abs (y2 - y1) in
  {| x2 := x2; y2 := y2; dx := dx; dy := dy;
     sx := if x1 <? x2 then 1 else -1;
     sy := if y1 <? y2 then 1 else -1;
     steps := Z.max (Z.max dx dy) 1;
     color1 := color1; color2 := color2 |}.

Definition initial_state (x1 y1 x2 y2 : Z) : loop_state :=
  {| points := []; current_x := x1; current_y := y1;
     err := Z.abs (x2 - x1) - Z.abs (y2 - y1); k := 0 |}.

(** [bresenham(x1, y1, x2, y2, color1=None, color2=None)] *)
Definition bresenham (fuel : nat) (x1 y1 x2 y2 : Z)
    (color1 color2 : option color) : option (list point) :=
  points <$> while_true (line_env_of x1 y1 x2 y2 color1 color2) fuel
               (initial_state x1 y1 x2 y2).

(** Fuel that always suffices for one line. *)
Definition line_fuel (x1 y1 x2 y2 : Z) : nat :=
  S (Z.to_nat (Z.max (Z.abs (x2 - x1)) (Z.abs (y2 - y1)))).


(** ** Exceptions and the outcome of a computation *)

Inductive exn :=
  ZeroDivisionError | IndexError | TypeError | ValueError | OverflowError.

(** A computation returns, raises, or is cut off by the fuel of a
    [while True] loop. *)
Inductive outcome (A : Type) : Type :=
  | Returns (a : A)
  | Raises (e : exn)
  | OutOfFuel.
Arguments Returns {A} a.
Arguments Raises {A} e.
Arguments OutOfFuel {A}.

Definition bind {A B} (m : outcome A) (f : A -> outcome B) : outcome B :=
  match m with
  | Returns a => f a
  | Raises e => Raises e
  | OutOfFuel => OutOfFuel
  end.

Notation "'let*' x ':=' m 'in' f" := (bind m (fun x => f))
  (at level 10, x name, m at level 100, f at level 200).

(** [for a in l: s = f(s, a)], stopping at the first exception. *)
Fixpoint for_each {A S} (f : S -> A -> outcome S) (l : list A) (s : S) : outcome S :=
  match l with
  | [] => Returns s
  | a :: l' => let* s' := f s a in for_each f l' s'
  end.

(** [[f(a) for a in l]], stopping at the first exception. *)
Fixpoint map_each {A B} (f : A -> outcome B) (l : list A) : outcome (list B) :=
  match l with
  | [] => Returns []
  | a :: l' => let* b := f a in let* bs := map_each f l' in Returns (b :: bs)
  end.

(** [l[i]] for an index that is not negative. *)
Definition index {A} (l : list A) (i : nat) : outcome A :=
  match l !! i with
  | Some a => Returns a
  | None => Raises IndexError
  end.

(** [a / b] on floats. *)
Definition py_div (a b : Q) : outcome Q :=
  if Qeq_bool b 0 then Raises ZeroDivisionError else Returns (a / b)%Q.

(** ** The rotation: [rotate_point] *)

(** The body of [rotate_point], over any arithmetic with a cosine and a
    sine. *)
Section Rotation.
Context {F : Type}.
Variables (add sub mul : F -> F -> F) (opp : F -> F) (cos sin : F -> F).

Local Infix "+" := add.
Local Infix "-" := sub.
Local Infix "*" := mul.
Local Notation "- x" := (opp x).

Definition rotate_point_in (x y z angle_x angle_y angle_z : F) : F * F * F :=
  (* Rotate around X axis *)
  let cos_x := cos angle_x in
  let sin_x := sin angle_x in
  let y1 := y * cos_x - z * sin_x in
  let z1 := y * sin_x + z * cos_x in
  (* Rotate around Y axis *)
  let cos_y := cos angle_y in
  let sin_y := sin angle_y in
  let x2 := x * cos_y + z1 * sin_y in
  let z2 := (- x) * sin_y + z1 * cos_y in
  (* Rotate around Z axis *)
  let cos_z := cos angle_z in
  let sin_z := sin angle_z in
  let x3 := x2 * cos_z - y1 * sin_z in
  let y3 := x2 * sin_z + y1 * cos_z in
  (x3, y3, z2).
End Rotation.

(** [rotate_point] in exact real arithmetic. *)
Definition rotate_point (x y z angle_x angle_y angle_z : R) : R * R * R :=
  rotate_point_in Rplus Rminus Rmult Ropp cos sin x y z angle_x angle_y angle_z.

(** ** The constants of the generated script *)

Record props := {
  width : Z;
  height : Z;
  scale_x : Q;
  scale_y : Q;
  dist : Q;
  line_char : string;
  pause : Q;
  rot_speed_x : Q;
  rot_speed_y : Q;
  rot_speed_z : Q;
  use_vertex_colors : bool
}.

Definition WIDTH (c : props) : Z := width c.
Definition HEIGHT (c : props) : Z := height c.
Definition SCALE_X (c : props) : Q := scale_x c.
Definition SCALE_Y (c : props) : Q := scale_y c.
Definition TRANSLATE_X (c : props) : Z := WIDTH c / 2.
Definition TRANSLATE_Y (c : props) : Z := HEIGHT c / 2.
Definition LINE_CHAR (c : props) : string := line_char c.
Definition DIST (c : props) : Q := dist c.

(** A vertex of the script: [(x, y, z)] or [(x, y, z, r, g, b)]. *)
Definition vertex : Type := (Q * Q * Q) * option color.

(** ** The perspective projection *)

(** The body of [for rx, ry, rz, *rest in rotated]. *)
Definition project (c : props) (rx ry rz : Q) : outcome (Z * Z) :=
  let* factor := py_div (DIST c) (DIST c + rz + 2)%Q in
  let px := py_int (inject_Z (TRANSLATE_X c) + factor * rx * SCALE_X c)%Q in
  let py := py_int (inject_Z (TRANSLATE_Y c) - factor * ry * SCALE_Y c)%Q in
  Returns (px, py).

(** ** The frame compositor *)

(** [0 <= px < WIDTH and 0 <= py < HEIGHT] *)
Definition in_bounds (c : props) (px py : Z) : bool :=
  (0 <=? px) && (px <? WIDTH c) && (0 <=? py) && (py <? HEIGHT c).

(** [object_points]: a dict from coordinates to colors in color mode, a set
    of coordinates otherwise. *)
Inductive frame_points :=
  | ColorPoints (m : gmap (Z * Z) color)
  | PlainPoints (s : gset (Z * Z)).

(** [for pt in line_points: ...] in color mode. *)
Definition put_colored (c : props) (m : gmap (Z * Z) color) (pt : point)
    : outcome (gmap (Z * Z) color) :=
  match pt with
  | ((px, py), Some col) =>
      if in_bounds c px py then Returns (<[(px, py) := col]> m) (* Last write wins *)
      else Returns m
  | (_, None) => Raises ValueError
  end.

(** [for pt in line_points: ...] without colors. *)
Definition put_plain (c : props) (s : gset (Z * Z)) (pt : point)
    : outcome (gset (Z * Z)) :=
  match pt with
  | ((px, py), None) =>
      if in_bounds c px py then Returns ({[(px, py)]} ∪ s) else Returns s
  | (_, Some _) => Raises ValueError
  end.

Definition run_line (r : option (list point)) : outcome (list point) :=
  match r with
  | Some pts => Returns pts
  | None => OutOfFuel
  end.

(** The colored call of [bresenham] on the coordinates [projected[i]] and
    [projected[j]], with [color1 = rotated[i][3:]] and
    [color2 = rotated[j][3:]]; an empty slice fails at [color1[0]]. *)
Definition colored_line (fuel : nat) (rotated : list vertex)
    (projected : list (Z * Z)) (e : nat * nat) : outcome (list point) :=
  let '(i, j) := e in
  let* vi := index rotated i in
  let* vj := index rotated j in
  let* p := index projected i in
  let* q := index projected j in
  match snd vi, snd vj with
  | Some color1, Some color2 =>
      run_line (bresenham fuel (fst p) (snd p) (fst q) (snd q)
                  (Some color1) (Some color2))
  | _, _ => Raises IndexError
  end.

(** The plain call of [bresenham] on [projected[i]] and [projected[j]]. *)
Definition plain_line (fuel : nat) (projected : list (Z * Z)) (e : nat * nat)
    : outcome (list point) :=
  let '(i, j) := e in
  let* p := index projected i in
  let* q := index projected j in
  run_line (bresenham fuel (fst p) (snd p) (fst q) (snd q) None None).

(** The body of [for i, j in edges] in color mode. *)
Definition add_colored_edge (fuel : nat) (c : props) (rotated : list vertex)
    (projected : list (Z * Z)) (m : gmap (Z * Z) color) (e : nat * nat)
    : outcome (gmap (Z * Z) color) :=
  let* line_points := colored_line fuel rotated projected e in
  for_each (put_colored c) line_points m.

(** The body of [for i, j in edges] without colors. *)
Definition add_plain_edge (fuel : nat) (c : props) (projected : list (Z * Z))
    (s : gset (Z * Z)) (e : nat * nat) : outcome (gset (Z * Z)) :=
  let* line_points := plain_line fuel projected e in
  for_each (put_plain c) line_points s.

(** The loop [for i, j in edges], which fills [object_points]. *)
Definition collect (fuel : nat) (c : props) (use_colors : bool)
    (rotated : list vertex) (projected : list (Z * Z)) (edges : list (nat * nat))
    : outcome frame_points :=
  if use_colors then
    let* m := for_each (add_colored_edge fuel c rotated projected) edges ∅ in
    Returns (ColorPoints m)
  else
    let* s := for_each (add_plain_edge fuel c projected) edges ∅ in
    Returns (PlainPoints s).

(** ** The terminal presenter *)

(** The escape character written as [\033] in the script. *)
Definition ESC : string := String (ascii_of_nat 27) EmptyString.
Definition newline : string := String (ascii_of_nat 10) EmptyString.

(** What one cell [(x, y)] of the canvas writes to [sys.stdout]. *)
Definition cell (c : props) (object_points : frame_points) (x y : Z) : string :=
  match object_points with
  | ColorPoints m =>
      match m !! (x, y) with
      | Some (r, g, b) =>
          ESC +:+ "[38;2;" +:+ pretty r +:+ ";" +:+ pretty g +:+ ";"
              +:+ pretty b +:+ "m" +:+ LINE_CHAR c +:+ ESC +:+ "[0m"
      | None => " "
      end
  | PlainPoints s => if decide ((x, y) ∈ s) then LINE_CHAR c else " "
  end.

(** [for y in range(HEIGHT): for x in range(WIDTH): ...] *)
Definition draw (c : props) (object_points : frame_points) : string :=
  String.concat ""
    ((fun y =>
        String.concat "" ((fun x => cell c object_points x y) <$> seqZ 0 (WIDTH c))
        +:+ newline) <$> seqZ 0 (HEIGHT c)).

(** ** The animation driver *)

(** The generated script: its constants and the two embedded lists. *)
Record script := {
  constants : props;
  vertices : list vertex;
  edges : list (nat * nat)
}.

(** [use_colors = len(vertices[0]) > 3 if vertices else False] *)
Definition use_colors (vs : list vertex) : bool :=
  match vs with
  | [] => false
  | v :: _ => match snd v with Some _ => true | None => false end
  end.

Record angles := { angle_x : Q; angle_y : Q; angle_z : Q }.

(** The state of the driver: in the loop, left through [except Exception],
    or still inside a [bresenham] call when the fuel ran out. *)
Inductive driver :=
  | Running (a : angles)
  | Terminated (e : exn)
  | Unfinished.

Section Script.
(** [math.cos] and [math.sin] as the script's floats see them. *)
Variables math_cos math_sin : Q -> Q.
Variable fuel : nat.
Variable prog : script.

Definition rotate_point_f (x y z ax ay az : Q) : Q * Q * Q :=
  rotate_point_in Qplus Qminus Qmult Qopp math_cos math_sin x y z ax ay az.

(** The body of [for vertex in vertices]; without colors the whole tuple
    is splatted into [rotate_point], which takes exactly six arguments. *)
Definition rotate_vertex (uc : bool) (a : angles) (v : vertex) : outcome vertex :=
  let '((x, y, z), rest) := v in
  let r := rotate_point_f x y z (angle_x a) (angle_y a) (angle_z a) in
  if uc then Returns (r, rest)
  else match rest with
       | None => Returns (r, None)
       | Some _ => Raises TypeError
       end.

Definition project_vertex (v : vertex) : outcome (Z * Z) :=
  let '((rx, ry, rz), _) := v in project (constants prog) rx ry rz.

(** Everything one iteration does before it updates the angles: the text
    it writes to the terminal. *)
Definition frame (a : angles) : outcome string :=
  let uc := use_colors (vertices prog) in
  let* rotated := map_each (rotate_vertex uc a) (vertices prog) in
  let* projected := map_each project_vertex rotated in
  let* object_points :=
    collect fuel (constants prog) uc rotated projected (edges prog) in
  Returns (draw (constants prog) object_points).

(** [angle_x += ...; angle_y += ...; angle_z += ...] *)
Definition update_angles (a : angles) : angles :=
  {| angle_x := (angle_x a + rot_speed_x (constants prog))%Q;
     angle_y := (angle_y a + rot_speed_y (constants prog))%Q;
     angle_z := (angle_z a + rot_speed_z (constants prog))%Q |}.

Definition start : driver :=
  Running {| angle_x := 0; angle_y := 0; angle_z := 0 |}.

(** One iteration of the outer [while True]: the frame written, if any,
    and the next state. *)
Definition iteration (d : driver) : option string * driver :=
  match d with
  | Running a =>
      match frame a with
      | Returns out => (Some out, Running (update_angles a))
      | Raises e => (None, Terminated e)
      | OutOfFuel => (None, Unfinished)
      end
  | _ => (None, d)
  end.

(** The frames written during the first [n] iterations. *)
Fixpoint run (n : nat) (d : driver) : list string * driver :=
  match n with
  | O => ([], d)
  | S n' =>
      let '(out, d') := iteration d in
      let '(outs, d'') := run n' d' in
      (match out with Some o => o :: outs | None => outs end, d'')
  end.
End Script.

(** ** The exporter: [RotatingASCIIOperator.execute] *)

Inductive attr_domain := POINT | CORNER.

(** [mesh.color_attributes.active_color]: its domain and the RGBA value of
    each element. *)
Record color_attribute := {
  domain : attr_domain;
  data : list (Q * Q * Q * Q)
}.

Record mesh := {
  mesh_vertices : list (Q * Q * Q);
  mesh_edges : list (nat * nat);
  active_color : option color_attribute
}.

(** [context.active_object] *)
Inductive active_object :=
  | NoObject
  | NotAMesh
  | MeshObject (m : mesh).

Inductive report_level := ERROR | WARNING | INFO.
Inductive status := CANCELLED | FINISHED.

Record export := {
  reports : list (report_level * string);
  returned : status;
  written : option script
}.

Section Exporter.
(** [Vector.length] of mathutils. *)
Variable vec_length : Q * Q * Q -> Q.
(** Where the script is saved: next to the .blend file, or in the current
    directory. *)
Variable filepath : string.

Definition vec_add (u v : Q * Q * Q) : Q * Q * Q :=
  let '(a, b, c) := u in let '(d, e, f) := v in (a + d, b + e, c + f)%Q.
Definition vec_sub (u v : Q * Q * Q) : Q * Q * Q :=
  let '(a, b, c) := u in let '(d, e, f) := v in (a - d, b - e, c - f)%Q.
Definition vec_mul (u : Q * Q * Q) (s : Q) : Q * Q * Q :=
  let '(a, b, c) := u in (a * s, b * s, c * s)%Q.
Definition vec_div (u : Q * Q * Q) (s : Q) : Q * Q * Q :=
  let '(a, b, c) := u in (a / s, b / s, c / s)%Q.

Definition Qmax (a b : Q) : Q := if Qle_bool a b then b else a.

(** [max(...)] over a generator of floats. *)
Definition py_max (l : list Q) : outcome Q :=
  match l with
  | [] => Raises ValueError
  | d :: l' => Returns (foldl Qmax d l')
  end.

(** The list [vertices] built by the exporter. *)
Definition export_vertices (m : mesh) (include_colors : option color_attribute)
    : outcome (list vertex) :=
  let vs := mesh_vertices m in
  let n := Z.of_nat (length vs) in
  let* center :=
    if (n =? 0)%Z then Raises ZeroDivisionError
    else Returns (vec_div (foldl vec_add (0, 0, 0)%Q vs) (inject_Z n)) in
  let* max_dist := py_max ((fun v => vec_length (vec_sub v center)) <$> vs) in
  let scale_factor := if Qlt_le_dec 0 max_dist then (1 / max_dist)%Q else 1%Q in
  match include_colors with
  | Some color_attr =>
      map_each (fun iv : nat * (Q * Q * Q) =>
        let vert := vec_mul (vec_sub (snd iv) center) scale_factor in
        let* col := index (data color_attr) (fst iv) in
        let '(cr, cg, cb, _) := col in
        Returns (vert, Some (py_int (cr * 255)%Q, py_int (cg * 255)%Q,
                             py_int (cb * 255)%Q)))
        (imap (fun i v => (i, v)) vs)
  | None =>
      Returns ((fun v => (vec_mul (vec_sub v center) scale_factor, None)) <$> vs)
  end.

Definition execute (obj : active_object) (p : props) : outcome export :=
  match obj with
  | NoObject | NotAMesh =>
      Returns {| reports := [(ERROR, "Please select a mesh object")];
                 returned := CANCELLED; written := None |}
  | MeshObject m =>
      if (length (mesh_vertices m) =? 0)%nat then
        Returns {| reports := [(ERROR, "Mesh has no vertices")];
                   returned := CANCELLED; written := None |}
      else
        let include_colors :=
          match active_color m with
          | Some color_attr =>
              if use_vertex_colors p then
                match domain color_attr with
                | POINT => Some color_attr
                | CORNER => None
                end
              else None
          | None => None
          end in
        let warning :=
          match include_colors with
          | None =>
              if use_vertex_colors p then
                [(WARNING, "Vertex colors not available or not per-vertex. Proceeding without colors.")]
              else []
          | Some _ => []
          end in
        let* vs := export_vertices m include_colors in
        Returns {| reports :=
                     warning
                     ++ [(INFO, "Rotating ASCII script saved to " +:+ filepath)];
                   returned := FINISHED;
                   written := Some {| constants := p; vertices := vs;
                                      edges := mesh_edges m |} |}
  end.
End Exporter.

(** * Pixel cubes: [OBJECT_OT_add_pixel_cubes.execute]

    The operator of [pixel2cube.py] reads an image and builds one mesh with
    a cube per pixel and a material per color.  The image buffer is a list
    of floats (exact rationals here); what the operator hands to Blender
    (the materials, the lists given to [from_pydata] and the material index
    of each polygon) is the record it returns. *)

Module PixelCubes.

Inductive exn := ValueError | KeyError | IndexError.

Inductive result (A : Type) : Type :=
  | Returns (a : A)
  | Raises (e : exn).
Arguments Returns {A} a.
Arguments Raises {A} e.

Definition bind {A B} (m : result A) (f : A -> result B) : result B :=
  match m with
  | Returns a => f a
  | Raises e => Raises e
  end.

Local Notation "'let+' x ':=' m 'in' f" := (bind m (fun x => f))
  (at level 10, x name, m at level 100, f at level 200).

(** [for a in l: s = f(s, a)], stopping at the first exception. *)
Fixpoint for_each {A S} (f : S -> A -> result S) (l : list A) (s : S) : result S :=
  match l with
  | [] => Returns s
  | a :: l' => let+ s' := f s a in for_each f l' s'
  end.

(** [[f(a) for a in l]], stopping at the first exception. *)
Fixpoint map_each {A B} (f : A -> result B) (l : list A) : result (list B) :=
  match l with
  | [] => Returns []
  | a :: l' => let+ b := f a in let+ bs := map_each f l' in Returns (b :: bs)
  end.

(** [l[i]] for an index that is not negative. *)
Definition index {A} (l : list A) (i : nat) : result A :=
  match l !! i with
  | Some a => Returns a
  | None => Raises IndexError
  end.

(** [bpy.types.Image]: [img.size] and the flat RGBA buffer [img.pixels]. *)
Record image := {
  size : Z * Z;
  pixels : list Q
}.

(** [bpy.data.images.load]: the image, or the text of the [RuntimeError]. *)
Inductive loaded :=
  | LoadError (msg : string)
  | Loaded (img : image).

(** The properties of the operator. *)
Record operator := {
  filepath : string;
  scale : Q;
  skip_transparent : bool
}.

(** Rounding to the nearest integer, ties to the even one. *)
Definition round_half_even (q : Q) : Z :=
  let f := Qfloor q in
  match (q - inject_Z f ?= 1 # 2)%Q with
  | Lt => f
  | Eq => if Z.even f then f else f + 1
  | Gt => f + 1
  end.

(** [round(c, 4)] *)
Definition py_round4 (c : Q) : Q := round_half_even (c * 10000) # 10000.

Definition color_key : Type := Q * Q * Q.

(** Equality of two dict keys: equality of the floats they hold. *)
Definition key_eqb (k k' : color_key) : bool :=
  let '(r, g, b) := k in
  let '(r', g', b') := k' in
  Qeq_bool r r' && Qeq_bool g g' && Qeq_bool b b'.

(** [color_dict[k]] on a dict held as its entries in insertion order. *)
Fixpoint dict_get (d : list (color_key * nat)) (k : color_key) : option nat :=
  match d with
  | [] => None
  | (k', v) :: d' => if key_eqb k' k then Some v else dict_get d' k
  end.

(** [r, g, b, a = ...] on a slice. *)
Definition unpack4 (l : list Q) : result (Q * Q * Q * Q) :=
  match l with
  | [r; g; b; a] => Returns (r, g, b, a)
  | _ => Raises ValueError
  end.

(** [pixels[idx:idx + 4]] unpacked, with [idx = (j * w + i) * 4]; the loops
    only reach it with an [idx] that is not negative. *)
Definition read_pixel (pixels : list Q) (w i j : Z) : result (Q * Q * Q * Q) :=
  let idx := (j * w + i) * 4 in
  unpack4 (take 4 (drop (Z.to_nat idx) pixels)).

(** [self.skip_transparent and a < 0.5] *)
Definition transparent (op : operator) (a : Q) : bool :=
  skip_transparent op && negb (Qle_bool (1 # 2) a).

(** [tuple(round(c, 4) for c in (r, g, b))] *)
Definition key_of (r g b : Q) : color_key :=
  (py_round4 r, py_round4 g, py_round4 b).

(** The state of the first pass. *)
Record palette := {
  color_dict : list (color_key * nat);
  color_list : list color_key;
  mat_index : nat
}.

(** The body of the first pass. *)
Definition collect_color (op : operator) (pixels : list Q) (w : Z)
    (st : palette) (i j : Z) : result palette :=
  let+ px := read_pixel pixels w i j in
  let '(r, g, b, a) := px in
  if transparent op a then Returns st
  else
    let color_key := key_of r g b in
    match dict_get (color_dict st) color_key with
    | Some _ => Returns st
    | None =>
        Returns {| color_dict := color_dict st ++ [(color_key, mat_index st)];
                   color_list := color_list st ++ [color_key];
                   mat_index := S (mat_index st) |}
    end.

(** The state of the second pass. *)
Record geometry := {
  verts : list (Q * Q * Q);
  faces : list (nat * nat * nat * nat);
  poly_mats : list nat;
  vert_offset : nat
}.

(** The eight vertices of a cube. *)
Definition cube_verts (x y z half : Q) : list (Q * Q * Q) :=
  [ (x - half, y - half, z - half);
    (x + half, y - half, z - half);
    (x + half, y + half, z - half);
    (x - half, y + half, z - half);
    (x - half, y - half, z + half);
    (x + half, y - half, z + half);
    (x + half, y + half, z + half);
    (x - half, y + half, z + half) ]%Q.

(** The six quads of a cube: bottom, top, front, back, left, right. *)
Definition cube_faces (vert_offset : nat) : list (nat * nat * nat * nat) :=
  [ (vert_offset + 0, vert_offset + 1, vert_offset + 2, vert_offset + 3);
    (vert_offset + 4, vert_offset + 5, vert_offset + 6, vert_offset + 7);
    (vert_offset + 0, vert_offset + 1, vert_offset + 5, vert_offset + 4);
    (vert_offset + 3, vert_offset + 2, vert_offset + 6, vert_offset + 7);
    (vert_offset + 0, vert_offset + 3, vert_offset + 7, vert_offset + 4);
    (vert_offset + 1, vert_offset + 2, vert_offset + 6, vert_offset + 5) ]%nat.

(** The body of the second pass. *)
Definition add_cube (op : operator) (pixels : list Q) (w : Z)
    (color_dict : list (color_key * nat)) (half : Q)
    (st : geometry) (i j : Z) : result geometry :=
  let+ px := read_pixel pixels w i j in
  let '(r, g, b, a) := px in
  if transparent op a then Returns st
  else
    let color_key := key_of r g b in
    match dict_get color_dict color_key with
    | None => Raises KeyError
    | Some mat_idx =>
        let x := (inject_Z i * scale op)%Q in
        let y := (inject_Z j * scale op)%Q in
        let z := 0%Q in
        Returns {| verts := verts st ++ cube_verts x y z half;
                   faces := faces st ++ cube_faces (vert_offset st);
                   poly_mats := poly_mats st ++ replicate 6 mat_idx;
                   vert_offset := vert_offset st + 8 |}
    end.

(** [for i in range(w): for j in range(h): ...] *)
Definition for_pixels {S} (w h : Z) (body : S -> Z -> Z -> result S) (s : S)
    : result S :=
  for_each (fun s i => for_each (fun s j => body s i j) (seqZ 0 h) s) (seqZ 0 w) s.

(** A material: the color and the roughness of its diffuse shader. *)
Record material := {
  diffuse_color : Q * Q * Q * Q;
  roughness : Q
}.

Definition new_material (color_key : color_key) : material :=
  let '(r, g, b) := color_key in
  {| diffuse_color := (r, g, b, 1%Q); roughness := 1 |}.

(** The object linked to the collection: its material slots, the lists
    given to [from_pydata], and the material index of each polygon. *)
Record object := {
  materials : list material;
  mesh_verts : list (Q * Q * Q);
  mesh_faces : list (nat * nat * nat * nat);
  material_index : list nat
}.

Record finished := {
  reports : list (report_level * string);
  returned : status;
  created : option object
}.

Definition cancelled (msg : string) : finished :=
  {| reports := [(ERROR, msg)]; returned := CANCELLED; created := None |}.

Definition execute (op : operator) (images_load : string -> loaded)
    : result finished :=
  if String.eqb (filepath op) "" then
    Returns (cancelled "No image file selected!")
  else
    match images_load (filepath op) with
    | LoadError msg => Returns (cancelled msg)
    | Loaded img =>
        let '(w, h) := size img in
        if (w =? 0) || (h =? 0) then
          Returns (cancelled "Invalid image size!")
        else
          let pixels := pixels img in
          let+ colors :=
            for_pixels w h (collect_color op pixels w)
              {| color_dict := []; color_list := []; mat_index := 0 |} in
          let materials := new_material <$> color_list colors in
          let half := (scale op / 2)%Q in
          let+ mesh :=
            for_pixels w h (add_cube op pixels w (color_dict colors) half)
              {| verts := []; faces := []; poly_mats := []; vert_offset := 0 |} in
          let+ material_index :=
            map_each (fun poly_idx => index (poly_mats mesh) poly_idx)
              (seq 0 (length (faces mesh))) in
          Returns {| reports := []; returned := FINISHED;
                     created := Some {| materials := materials;
                                        mesh_verts := verts mesh;
                                        mesh_faces := faces mesh;
                                        material_index := material_index |} |}
    end.

End PixelCubes.

(** * Verification *)

(** ** The rasterizer on examples *)

Example bresenham_2_1 :
  bresenham 10 0 0 2 1 None None
  = Some [((0, 0), None); ((1, 0), None); ((2, 1), None)].
Proof. reflexivity. Qed.

Example bresenham_2_1_rev :
  bresenham 10 2 1 0 0 None None
  = Some [((2, 1), None); ((1, 1), None); ((0, 0), None)].
Proof. reflexivity. Qed.

Example bresenham_col :
  bresenham 10 0 0 4 1 (Some (0, 10, 255)) (Some (255, 0, 254))
  = Some [((0, 0), Some (0, 10, 255)); ((1, 0), Some (63, 7, 254));
          ((2, 0), Some (127, 5, 254)); ((3, 1), Some (191, 2, 254));
          ((4, 1), Some (255, 0, 254))].
Proof. vm_compute. reflexivity. Qed.

(** ** The loop invariant of the rasterizer *)

Section Invariant.
Variable E : line_env.
Variables x1 y1 : Z.

(** What [bresenham] establishes before the loop. *)
Record wf_env : Prop := {
  wf_dx : 0 <= dx E;
  wf_dy : 0 <= dy E;
  wf_sx : sx E = 1 \/ sx E = -1;
  wf_sy : sy E = 1 \/ sy E = -1;
  wf_x2 : x2 E = x1 + sx E * dx E;
  wf_y2 : y2 E = y1 + sy E * dy E
}.

(** After [a] steps along x and [b] steps along y the error term is the
    cross product of the walked offset with the line direction, and it
    stays within half a cell of the ideal line. *)
Definition Inv (a b : Z) (st : loop_state) : Prop :=
  current_x st = x1 + sx E * a /\
  current_y st = y1 + sy E * b /\
  0 <= a <= dx E /\
  0 <= b <= dy E /\
  err st = dx E - dy E + dx E * b - dy E * a /\
  (dy E <= dx E ->
     k st = a /\
     (0 < dx E -> dy E - 2 * dx E < 2 * (dx E * b - dy E * a) < dx E)) /\
  (dx E < dy E ->
     k st = b /\
     - dy E < 2 * (dx E * b - dy E * a) < 2 * dy E - dx E).

Hypothesis WF : wf_env.

Lemma at_target_iff a b st :
  Inv a b st -> at_target E st = true <-> a = dx E /\ b = dy E.
Proof.
  intros (Hx & Hy & Ha & Hb & _).
  unfold at_target. rewrite andb_true_iff, !Z.eqb_eq.
  rewrite Hx, Hy, (wf_x2 WF), (wf_y2 WF).
  destruct (wf_sx WF) as [-> | ->], (wf_sy WF) as [-> | ->]; lia.
Qed.


Lemma Inv_k_max a b st :
  Inv a b st -> k st = Z.max (dx E) (dy E) <-> a = dx E /\ b = dy E.
Proof.
  intros (_ & _ & Ha & Hb & _ & Hxd & Hyd).
  destruct (Z_le_gt_dec (dy E) (dx E)) as [Hle | Hgt].
  - destruct (Hxd Hle) as [-> Hbnd]. rewrite Z.max_l by lia.
    split; [intros -> | tauto]. split; [reflexivity|].
    destruct (Z.eq_dec (dx E) 0) as [H0 | H0]; [lia|].
    specialize (Hbnd ltac:(lia)). nia.
  - destruct (Hyd ltac:(lia)) as [-> Hbnd]. rewrite Z.max_r by lia.
    split; [intros -> | tauto]. split; [nia | reflexivity].
Qed.

(** The invariant after a step, once the new offsets are chosen: the
    bounds on the cross product follow from the test that was taken, case by
    case on the dominant axis. *)
Ltac step_bounds Hxd Hyd :=
  unfold Inv; simpl;
  destruct (Z_le_gt_dec (dy E) (dx E)) as [Hle | Hgt];
  [ destruct (Hxd Hle) as [Hk Hbnd];
    assert (Hpos : 0 < dx E) by lia; specialize (Hbnd Hpos)
  | destruct (Hyd ltac:(lia)) as [Hk Hbnd] ];
  repeat split; nia.

Lemma Inv_advance a b st :
  Inv a b st -> at_target E st = false ->
  exists a' b', Inv a' b' (advance E st).
Proof.
  intros HI Hnt.
  assert (Hne : ~ (a = dx E /\ b = dy E)).
  { rewrite <- (at_target_iff a b st HI). congruence. }
  destruct HI as (Hx & Hy & Ha & Hb & He & Hxd & Hyd).
  unfold advance.
  destruct (Z.gtb_spec (2 * err st) (- dy E)) as [Hgx | Hgx];
    destruct (Z.ltb_spec (2 * err st) (dx E)) as [Hgy | Hgy].
  - exists (a + 1), (b + 1). step_bounds Hxd Hyd.
  - exists (a + 1), b. step_bounds Hxd Hyd.
  - exists a, (b + 1). step_bounds Hxd Hyd.
  - exfalso. lia.
Qed.
End Invariant.

(** ** What the loop computes *)

(** The states at the top of the first [n + 1] iterations. *)
Fixpoint states (E : line_env) (n : nat) (st : loop_state) : list loop_state :=
  st :: match n with
        | O => []
        | S n' => states E n' (advance E st)
        end.

(** The tuples these iterations append. *)
Definition trace (E : line_env) (n : nat) (st : loop_state) : list point :=
  emit E <$> states E n st.

Lemma states_length E n st : length (states E n st) = S n.
Proof. revert st; induction n as [|n IH]; intros st; simpl; [|rewrite IH]; reflexivity. Qed.

Lemma trace_length E n st : length (trace E n st) = S n.
Proof. unfold trace. rewrite length_fmap. apply states_length. Qed.

Lemma advance_k E st : k (advance E st) = k st + 1.
Proof.
  unfold advance.
  destruct (2 * err st >? - dy E), (2 * err st <? dx E); reflexivity.
Qed.

Lemma states_k E n st (i : nat) s :
  states E n st !! i = Some s -> k s = k st + Z.of_nat i.
Proof.
  revert st i; induction n as [|n IH]; intros st [|i] H; simpl in H.
  - inversion H; lia.
  - discriminate.
  - inversion H; lia.
  - apply IH in H. rewrite advance_k in H. lia.
Qed.

Lemma states_last_k E n st s :
  last (states E n st) = Some s -> k s = k st + Z.of_nat n.
Proof.
  rewrite last_lookup, states_length. simpl. apply states_k.
Qed.

Section Run.
Variable E : line_env.
Variables x1 y1 : Z.
Hypothesis WF : wf_env E x1 y1.

Local Abbreviation M := (Z.max (dx E) (dy E)).

Lemma not_at_target_before_end a b st :
  Inv E x1 y1 a b st -> k st < M -> at_target E st = false.
Proof.
  intros HI Hk. destruct (at_target E st) eqn:Hat; [|reflexivity].
  apply (at_target_iff E x1 y1 WF a b st HI) in Hat.
  apply (Inv_k_max E x1 y1 a b st HI) in Hat. lia.
Qed.

Lemma at_target_at_end a b st :
  Inv E x1 y1 a b st -> k st = M -> at_target E st = true.
Proof.
  intros HI Hk. apply (at_target_iff E x1 y1 WF a b st HI).
  apply (Inv_k_max E x1 y1 a b st HI). exact Hk.
Qed.

(** With one unit of fuel per remaining iteration, and one more for the
    iteration that breaks, the loop returns, having appended the trace. *)
Lemma while_true_run n : forall st a b,
  Inv E x1 y1 a b st -> Z.of_nat n = M - k st ->
  forall fuel, (n < fuel)%nat ->
  exists st', while_true E fuel st = Some st' /\
              points st' = points st ++ trace E n st.
Proof.
  induction n as [|n IH]; intros st a b HI Hn [|fuel] Hf; try lia.
  - simpl. unfold loop_body.
    rewrite (at_target_at_end a b st HI) by lia.
    eexists; split; [reflexivity|]. reflexivity.
  - simpl. unfold loop_body.
    rewrite (not_at_target_before_end a b st HI) by lia.
    destruct (Inv_advance E x1 y1 WF a b st HI) as (a' & b' & HI').
    { apply (not_at_target_before_end a b st HI). lia. }
    destruct (IH (advance E st) a' b' HI') with (fuel := fuel)
      as (st' & Hrun & Hpts).
    { rewrite advance_k. lia. }
    { lia. }
    exists st'. split; [exact Hrun|].
    rewrite Hpts. unfold trace. simpl.
    assert (Hp : points (advance E st) = points st ++ [emit E st]).
    { unfold advance.
      destruct (2 * err st >? - dy E), (2 * err st <? dx E); reflexivity. }
    rewrite Hp, <- app_assoc. reflexivity.
Qed.

(** Too little fuel: the loop is still running when it runs out. *)
Lemma while_true_short n : forall st a b,
  Inv E x1 y1 a b st -> Z.of_nat n = M - k st ->
  forall fuel, (fuel <= n)%nat -> while_true E fuel st = None.
Proof.
  induction n as [|n IH]; intros st a b HI Hn [|fuel] Hf;
    try reflexivity; try lia.
  simpl. unfold loop_body.
  rewrite (not_at_target_before_end a b st HI) by lia.
  destruct (Inv_advance E x1 y1 WF a b st HI) as (a' & b' & HI').
  { apply (not_at_target_before_end a b st HI). lia. }
  apply (IH _ a' b' HI'); [rewrite advance_k|]; lia.
Qed.

(** Every state the loop goes through satisfies the invariant. *)
Lemma states_Inv n : forall st a b,
  Inv E x1 y1 a b st -> Z.of_nat n = M - k st ->
  Forall (fun s => exists a' b', Inv E x1 y1 a' b' s) (states E n st).
Proof.
  induction n as [|n IH]; intros st a b HI Hn; simpl.
  - constructor; [eauto | constructor].
  - constructor; [eauto|].
    destruct (Inv_advance E x1 y1 WF a b st HI) as (a' & b' & HI').
    { apply (not_at_target_before_end a b st HI). lia. }
    apply (IH _ a' b' HI'). rewrite advance_k. lia.
Qed.

(** The last state is at the target. *)
Lemma states_last n st a b :
  Inv E x1 y1 a b st -> Z.of_nat n = M - k st ->
  exists s, last (states E n st) = Some s /\
            current_x s = x2 E /\ current_y s = y2 E /\ k s = M.
Proof.
  intros HI Hn.
  destruct (last (states E n st)) as [s|] eqn:Hl.
  2:{ apply last_None in Hl. destruct n; discriminate. }
  exists s. split; [reflexivity|].
  pose proof (states_last_k _ _ _ _ Hl) as Hk.
  pose proof (states_Inv n st a b HI Hn) as HF.
  rewrite Forall_forall in HF.
  destruct (HF s) as (a' & b' & HI').
  { rewrite last_lookup in Hl. apply list_elem_of_lookup. eauto. }
  assert (Hat : at_target E s = true)
    by (apply (at_target_at_end a' b' s HI'); lia).
  unfold at_target in Hat. rewrite andb_true_iff, !Z.eqb_eq in Hat.
  intuition lia.
Qed.
End Run.

(** ** Truncation toward zero *)

Lemma py_int_floor q : (0 <= q)%Q -> py_int q = Qfloor q.
Proof.
  destruct q as [n d]. unfold Qle, py_int, Qfloor; simpl. intros H.
  apply Z.quot_div_nonneg; lia.
Qed.

Lemma py_int_ceiling q : (q <= 0)%Q -> py_int q = Qceiling q.
Proof.
  destruct q as [n d]. unfold Qle, py_int, Qceiling, Qfloor; simpl. intros H.
  rewrite <- (Z.opp_involutive n) at 1.
  rewrite Z.quot_opp_l by lia. f_equal.
  apply Z.quot_div_nonneg; lia.
Qed.

(** Truncation never leaves an interval with integer ends. *)
Lemma py_int_bounds q lo hi :
  (inject_Z lo <= q <= inject_Z hi)%Q -> lo <= py_int q <= hi.
Proof.
  intros [Hlo Hhi].
  pose proof (Qfloor_resp_le _ _ Hlo) as Hf. rewrite Qfloor_Z in Hf.
  pose proof (Qceiling_resp_le _ _ Hhi) as Hc. rewrite Qceiling_Z in Hc.
  pose proof (Qle_floor_ceiling q) as Hfc. rewrite <- Zle_Qle in Hfc.
  destruct (Qlt_le_dec q 0) as [Hneg | Hpos].
  - rewrite py_int_ceiling by (apply Qlt_le_weak; exact Hneg). lia.
  - rewrite py_int_floor by exact Hpos. lia.
Qed.


(** ** Color interpolation *)






(** ** The rasterizer as a whole *)

Lemma line_env_of_wf x1 y1 x2 y2 c1 c2 :
  wf_env (line_env_of x1 y1 x2 y2 c1 c2) x1 y1.
Proof.
  constructor; simpl.
  - lia.
  - lia.
  - destruct (x1 <? x2); auto.
  - destruct (y1 <? y2); auto.
  - destruct (Z.ltb_spec x1 x2); lia.
  - destruct (Z.ltb_spec y1 y2); lia.
Qed.

Lemma initial_Inv x1 y1 x2 y2 c1 c2 :
  Inv (line_env_of x1 y1 x2 y2 c1 c2) x1 y1 0 0 (initial_state x1 y1 x2 y2).
Proof. unfold Inv; simpl. repeat split; lia. Qed.

(** The number of iterations after the first. *)
Definition span (x1 y1 x2 y2 : Z) : nat :=
  Z.to_nat (Z.max (Z.abs (x2 - x1)) (Z.abs (y2 - y1))).

(** With enough fuel [bresenham] returns the trace of its loop. *)
Lemma bresenham_trace x1 y1 x2 y2 c1 c2 fuel :
  (line_fuel x1 y1 x2 y2 <= fuel)%nat ->
  bresenham fuel x1 y1 x2 y2 c1 c2
  = Some (trace (line_env_of x1 y1 x2 y2 c1 c2) (span x1 y1 x2 y2)
            (initial_state x1 y1 x2 y2)).
Proof.
  intros Hf. unfold bresenham.
  destruct (while_true_run _ x1 y1 (line_env_of_wf x1 y1 x2 y2 c1 c2)
              (span x1 y1 x2 y2) _ 0 0 (initial_Inv x1 y1 x2 y2 c1 c2))
    with (fuel := fuel) as (st' & Hrun & Hpts).
  - unfold span; simpl. lia.
  - unfold line_fuel, span in *. lia.
  - rewrite Hrun. simpl. rewrite Hpts. reflexivity.
Qed.

(** With less fuel it does not return. *)
Lemma bresenham_short x1 y1 x2 y2 c1 c2 fuel :
  (fuel < line_fuel x1 y1 x2 y2)%nat ->
  bresenham fuel x1 y1 x2 y2 c1 c2 = None.
Proof.
  intros Hf. unfold bresenham.
  rewrite (while_true_short _ x1 y1 (line_env_of_wf x1 y1 x2 y2 c1 c2)
             (span x1 y1 x2 y2) _ 0 0 (initial_Inv x1 y1 x2 y2 c1 c2)).
  - reflexivity.
  - unfold span; simpl. lia.
  - unfold line_fuel, span in *. lia.
Qed.

Lemma bresenham_length x1 y1 x2 y2 c1 c2 fuel pts :
  bresenham fuel x1 y1 x2 y2 c1 c2 = Some pts ->
  Z.of_nat (length pts) = Z.max (Z.abs (x2 - x1)) (Z.abs (y2 - y1)) + 1.
Proof.
  intros H.
  destruct (Nat.lt_ge_cases fuel (line_fuel x1 y1 x2 y2)) as [Hlt | Hge].
  - rewrite bresenham_short in H by exact Hlt. discriminate.
  - rewrite bresenham_trace in H by exact Hge. inversion H.
    rewrite trace_length. unfold span. lia.
Qed.

Lemma emit_fst E st : fst (emit E st) = (current_x st, current_y st).
Proof.
  unfold emit, use_col. destruct (color1 E) as [[[? ?] ?]|], (color2 E) as [[[? ?] ?]|];
    reflexivity.
Qed.

Lemma trace_head E n st : head (trace E n st) = Some (emit E st).
Proof. destruct n; reflexivity. Qed.

Lemma trace_last E n st : last (trace E n st) = emit E <$> last (states E n st).
Proof. unfold trace. apply fmap_last. Qed.

(** C2.  For any two integer screen points the sequence produced by
    [bresenham] is non-empty, starts at the first point and ends at the
    second one; the loop returns as soon as it has [line_fuel] iterations
    at its disposal. *)
Theorem bresenham_endpoints x1 y1 x2 y2 c1 c2 fuel :
  (line_fuel x1 y1 x2 y2 <= fuel)%nat ->
  exists pts,
    bresenham fuel x1 y1 x2 y2 c1 c2 = Some pts /\
    pts <> [] /\
    fst <$> head pts = Some (x1, y1) /\
    fst <$> last pts = Some (x2, y2).
Proof.
  intros Hf. rewrite (bresenham_trace _ _ _ _ _ _ _ Hf).
  eexists; split; [reflexivity|].
  set (E := line_env_of x1 y1 x2 y2 c1 c2).
  split; [|split].
  - intros Hnil. apply (f_equal length) in Hnil.
    rewrite trace_length in Hnil. discriminate.
  - rewrite trace_head. simpl. rewrite emit_fst. reflexivity.
  - rewrite trace_last.
    destruct (states_last E x1 y1 (line_env_of_wf x1 y1 x2 y2 c1 c2)
                (span x1 y1 x2 y2) _ 0 0 (initial_Inv x1 y1 x2 y2 c1 c2))
      as (s & Hl & Hx & Hy & _).
    { unfold span; simpl. lia. }
    rewrite Hl. simpl. rewrite emit_fst, Hx, Hy. reflexivity.
Qed.

Lemma bresenham_endpoints_witness :
  exists pts,
    bresenham 5 3 7 0 9 None None = Some pts /\
    pts <> [] /\
    fst <$> head pts = Some (3, 7) /\
    fst <$> last pts = Some (0, 9).
Proof. apply (bresenham_endpoints 3 7 0 9 None None 5). vm_compute. lia. Defined.

(** C7.  For any two integer screen points [bresenham] terminates, after
    at most [line_fuel] iterations, and produces at most
    [max(|x2 - x1|, |y2 - y1|) + 1] points. *)
Theorem bresenham_terminates_bounded x1 y1 x2 y2 c1 c2 fuel :
  (line_fuel x1 y1 x2 y2 <= fuel)%nat ->
  exists pts,
    bresenham fuel x1 y1 x2 y2 c1 c2 = Some pts /\
    Z.of_nat (length pts) <= Z.max (Z.abs (x2 - x1)) (Z.abs (y2 - y1)) + 1.
Proof.
  intros Hf. rewrite (bresenham_trace _ _ _ _ _ _ _ Hf).
  eexists; split; [reflexivity|].
  rewrite trace_length. unfold span. lia.
Qed.

Lemma bresenham_terminates_bounded_witness :
  exists pts,
    bresenham 8 (-2) 1 4 (-3) None None = Some pts /\
    Z.of_nat (length pts) <= Z.max (Z.abs (4 - -2)) (Z.abs (-3 - 1)) + 1.
Proof.
  apply (bresenham_terminates_bounded (-2) 1 4 (-3) None None 8).
  vm_compute. lia.
Defined.

(** The dominant coordinate advances at every iteration, so no cell is
    visited twice. *)
Lemma Inv_position_k E x1 y1 (WF : wf_env E x1 y1) a b s a' b' s' :
  Inv E x1 y1 a b s -> Inv E x1 y1 a' b' s' ->
  current_x s = current_x s' -> current_y s = current_y s' ->
  k s = k s'.
Proof.
  intros (Hx & Hy & _ & _ & _ & Hxd & Hyd) (Hx' & Hy' & _ & _ & _ & Hxd' & Hyd')
         Ex Ey.
  assert (a = a' /\ b = b') as [-> ->].
  { rewrite Hx, Hx' in Ex. rewrite Hy, Hy' in Ey.
    destruct (wf_sx _ _ _ WF) as [Hs | Hs], (wf_sy _ _ _ WF) as [Ht | Ht];
      rewrite Hs in Ex; rewrite Ht in Ey; lia. }
  destruct (Z_le_gt_dec (dy E) (dx E)) as [Hle | Hgt].
  - destruct (Hxd Hle) as [-> _], (Hxd' Hle) as [-> _]. reflexivity.
  - destruct (Hyd ltac:(lia)) as [-> _], (Hyd' ltac:(lia)) as [-> _]. reflexivity.
Qed.

Lemma bresenham_NoDup fuel x1 y1 x2 y2 c1 c2 pts :
  bresenham fuel x1 y1 x2 y2 c1 c2 = Some pts -> NoDup (fst <$> pts).
Proof.
  intros H.
  destruct (Nat.lt_ge_cases fuel (line_fuel x1 y1 x2 y2)) as [Hlt | Hge].
  { rewrite bresenham_short in H by exact Hlt. discriminate. }
  rewrite bresenham_trace in H by exact Hge. inversion H; subst pts; clear H.
  pose proof (line_env_of_wf x1 y1 x2 y2 c1 c2) as WF.
  pose proof (states_Inv _ x1 y1 WF (span x1 y1 x2 y2) _ 0 0
                (initial_Inv x1 y1 x2 y2 c1 c2)) as HF.
  specialize (HF ltac:(unfold span; simpl; lia)).
  rewrite Forall_lookup in HF.
  apply NoDup_alt. intros i j p Hi Hj.
  unfold trace in Hi, Hj. rewrite !list_lookup_fmap in Hi, Hj.
  destruct (states _ _ _ !! i) as [s|] eqn:Hs; [|discriminate].
  destruct (states _ _ _ !! j) as [s'|] eqn:Hs'; [|discriminate].
  simpl in Hi, Hj. rewrite emit_fst in Hi, Hj.
  inversion Hi; subst p; clear Hi. inversion Hj as [[Ex Ey]]; clear Hj.
  destruct (HF _ _ Hs) as (a & b & HI), (HF _ _ Hs') as (a' & b' & HI').
  pose proof (Inv_position_k _ x1 y1 WF _ _ _ _ _ _ HI HI'
                (eq_sym Ex) (eq_sym Ey)) as Hk.
  apply states_k in Hs, Hs'. simpl in Hs, Hs'. lia.
Qed.

(** ** Colors along a line *)












(** ** Reversing a line *)



Section Mirror.
Variables x1 y1 x2 y2 : Z.
Variables c1 c2 c1' c2' : option color.

Local Abbreviation E := (line_env_of x1 y1 x2 y2 c1 c2).
Local Abbreviation E' := (line_env_of x2 y2 x1 y1 c1' c2').




End Mirror.




(** ** The perspective projection *)





(** A canvas of the smallest size the exporter allows, seen from close by. *)
Definition small_canvas : props :=
  {| width := 10; height := 5;
     scale_x := 81 # 4; scale_y := 21 # 2;
     dist := 2; line_char := "#"; pause := 1 # 20;
     rot_speed_x := 0; rot_speed_y := 0; rot_speed_z := 0;
     use_vertex_colors := false |}.




(** ** The projection and the interpolation in binary64

    The same source lines evaluated with the IEEE 754 double precision
    operations of [SpecFloat], to see that the values the rational model
    gives on the inputs above are the ones Python computes. *)

(** The double [m * 2^e], rounded to nearest even. *)
Definition b64 (m e : Z) : spec_float := binary_normalize 53 1024 m e false.
Definition b64_add : spec_float -> spec_float -> spec_float := SFadd 53 1024.
Definition b64_sub : spec_float -> spec_float -> spec_float := SFsub 53 1024.
Definition b64_mul : spec_float -> spec_float -> spec_float := SFmul 53 1024.

(** [a / b]; a zero divisor raises. *)
Definition b64_div (a b : spec_float) : outcome spec_float :=
  match b with
  | S754_zero _ => Raises ZeroDivisionError
  | _ => Returns (SFdiv 53 1024 a b)
  end.

(** [int(f)]; an infinity and a NaN raise. *)
Definition b64_int (f : spec_float) : outcome Z :=
  match f with
  | S754_zero _ => Returns 0
  | S754_finite s m e =>
      let v := if 0 <=? e then Z.pos m * 2 ^ e else Z.pos m / 2 ^ (- e) in
      Returns (if s then - v else v)
  | S754_infinity _ => Raises OverflowError
  | S754_nan => Raises ValueError
  end.

(** The body of the projection loop, on doubles. *)
Definition project_b64 (WIDTH HEIGHT : Z) (DIST SCALE_X SCALE_Y : spec_float)
    (rx ry rz : spec_float) : outcome (Z * Z) :=
  let* factor := b64_div DIST (b64_add (b64_add DIST rz) (b64 2 0)) in
  let* px := b64_int (b64_add (b64 (WIDTH / 2) 0)
                        (b64_mul (b64_mul factor rx) SCALE_X)) in
  let* py := b64_int (b64_sub (b64 (HEIGHT / 2) 0)
                        (b64_mul (b64_mul factor ry) SCALE_Y)) in
  Returns (px, py).

(** One interpolated channel, on doubles. *)
Definition channel_b64 (c1 c2 k steps : Z) : outcome Z :=
  let* fraction := b64_div (b64 k 0) (b64 steps 0) in
  b64_int (b64_add (b64 c1 0) (b64_mul fraction (b64 (c2 - c1) 0))).

(** On [small_canvas], whose scales are 81/4 and 21/2, at the point
    (-1, 0, 0). *)
Example project_b64_negative :
  project_b64 10 5 (b64 2 0) (b64 81 (-2)) (b64 21 (-1))
    (b64 (-1) 0) (b64 0 0) (b64 0 0)
  = project small_canvas (-1) 0 0.
Proof. vm_compute. reflexivity. Qed.

(** The single point of a line with coincident endpoints: [k = 0] and
    [steps = 1]. *)
Example channel_b64_coincident :
  channel_b64 255 0 0 1 = Returns (channel 255 0 0 1) /\
  channel_b64 0 255 0 1 = Returns (channel 0 255 0 1).
Proof. split; vm_compute; reflexivity. Qed.

(** ** The rotation *)

Section RotationFacts.
Local Open Scope R_scope.

Lemma rotate_point_eq x y z ax ay az :
  rotate_point x y z ax ay az
  = let y1 := y * cos ax - z * sin ax in
    let z1 := y * sin ax + z * cos ax in
    let x2 := x * cos ay + z1 * sin ay in
    let z2 := - x * sin ay + z1 * cos ay in
    (x2 * cos az - y1 * sin az, x2 * sin az + y1 * cos az, z2).
Proof. reflexivity. Qed.

(** Rotations about one axis. *)
Lemma rotate_about_x x y z a :
  rotate_point x y z a 0 0 = (x, y * cos a - z * sin a, y * sin a + z * cos a).
Proof. rewrite rotate_point_eq, cos_0, sin_0. simpl. f_equal; [f_equal|]; ring. Qed.

Lemma rotate_about_y x y z a :
  rotate_point x y z 0 a 0 = (x * cos a + z * sin a, y, - x * sin a + z * cos a).
Proof. rewrite rotate_point_eq, cos_0, sin_0. simpl. f_equal; [f_equal|]; ring. Qed.

Lemma rotate_about_z x y z a :
  rotate_point x y z 0 0 a = (x * cos a - y * sin a, x * sin a + y * cos a, z).
Proof. rewrite rotate_point_eq, cos_0, sin_0. simpl. f_equal; [f_equal|]; ring. Qed.

(** [rotate_point] is the rotation about X, then Y, then Z. *)
Lemma rotate_point_sequence x y z ax ay az :
  rotate_point x y z ax ay az
  = let '(x1, y1, z1) := rotate_point x y z ax 0 0 in
    let '(x2, y2, z2) := rotate_point x1 y1 z1 0 ay 0 in
    rotate_point x2 y2 z2 0 0 az.
Proof.
  rewrite rotate_about_x, rotate_about_y, rotate_about_z. reflexivity.
Qed.

Lemma turn_back u v a :
  (u * cos a - v * sin a) * cos (- a) - (u * sin a + v * cos a) * sin (- a) = u /\
  (u * cos a - v * sin a) * sin (- a) + (u * sin a + v * cos a) * cos (- a) = v.
Proof.
  rewrite cos_neg, sin_neg. pose proof (sin2_cos2 a) as H.
  unfold Rsqr in H. split.
  - transitivity (u * (sin a * sin a + cos a * cos a)); [ring | rewrite H; ring].
  - transitivity (v * (sin a * sin a + cos a * cos a)); [ring | rewrite H; ring].
Qed.

Lemma undo_about_x x y z a :
  let '(x', y', z') := rotate_point x y z a 0 0 in
  rotate_point x' y' z' (- a) 0 0 = (x, y, z).
Proof.
  rewrite rotate_about_x, rotate_about_x.
  destruct (turn_back y z a) as [H1 H2]. rewrite H1, H2. reflexivity.
Qed.

Lemma undo_about_y x y z a :
  let '(x', y', z') := rotate_point x y z 0 a 0 in
  rotate_point x' y' z' 0 (- a) 0 = (x, y, z).
Proof.
  rewrite rotate_about_y, rotate_about_y.
  destruct (turn_back z x a) as [H1 H2].
  f_equal; [f_equal|].
  - rewrite <- H2 at 3. rewrite cos_neg, sin_neg. ring.
  - rewrite <- H1 at 3. rewrite cos_neg, sin_neg. ring.
Qed.

Lemma undo_about_z x y z a :
  let '(x', y', z') := rotate_point x y z 0 0 a in
  rotate_point x' y' z' 0 0 (- a) = (x, y, z).
Proof.
  rewrite rotate_about_z, rotate_about_z.
  destruct (turn_back x y a) as [H1 H2]. rewrite H1, H2. reflexivity.
Qed.

(** C8.  Over exact arithmetic, rotating by (0, 0, 0) yields the
    identical point, and rotating by (ax, ay, az) and then by the inverse
    angles in reverse axis order (by -az about Z, then by -ay about Y,
    then by -ax about X) returns the original point. *)
Theorem rotate_point_identity_inverse :
  (forall x y z, rotate_point x y z 0 0 0 = (x, y, z)) /\
  (forall x y z ax ay az,
     let '(x1, y1, z1) := rotate_point x y z ax ay az in
     let '(x2, y2, z2) := rotate_point x1 y1 z1 0 0 (- az) in
     let '(x3, y3, z3) := rotate_point x2 y2 z2 0 (- ay) 0 in
     rotate_point x3 y3 z3 (- ax) 0 0 = (x, y, z)).
Proof.
  split.
  - intros x y z. rewrite rotate_about_x, cos_0, sin_0.
    f_equal; [f_equal|]; ring.
  - intros x y z ax ay az. rewrite rotate_point_sequence.
    destruct (rotate_point x y z ax 0 0) as [[xa ya] za] eqn:Ha.
    destruct (rotate_point xa ya za 0 ay 0) as [[xb yb] zb] eqn:Hb.
    destruct (rotate_point xb yb zb 0 0 az) as [[xc yc] zc] eqn:Hc.
    pose proof (undo_about_z xb yb zb az) as Uz. rewrite Hc in Uz.
    pose proof (undo_about_y xa ya za ay) as Uy. rewrite Hb in Uy.
    pose proof (undo_about_x x y z ax) as Ux. rewrite Ha in Ux.
    rewrite Uz, Uy. exact Ux.
Qed.
End RotationFacts.

(** ** The frame compositor *)

Lemma for_each_app {A S} (f : S -> A -> outcome S) l1 l2 s :
  for_each f (l1 ++ l2) s = (let* s' := for_each f l1 s in for_each f l2 s').
Proof.
  revert s; induction l1 as [|a l1 IH]; intros s; simpl; [reflexivity|].
  destruct (f s a); simpl; auto.
Qed.

(** A property kept by every step is kept by the loop. *)
Lemma for_each_keeps {A S} (P : S -> Prop) (f : S -> A -> outcome S) l :
  (forall s a s', P s -> f s a = Returns s' -> P s') ->
  forall s s', P s -> for_each f l s = Returns s' -> P s'.
Proof.
  intros Hstep. induction l as [|a l IH]; intros s s' Hs H; simpl in H.
  - inversion H; subst; exact Hs.
  - destruct (f s a) as [s1| |] eqn:Hf; simpl in H; try discriminate.
    eapply IH; [|exact H]. eapply Hstep; eauto.
Qed.

(** A loop whose steps all return does return. *)
Lemma for_each_returns {A S} (f : S -> A -> outcome S) l :
  Forall (fun a => forall s, exists s', f s a = Returns s') l ->
  forall s, exists s', for_each f l s = Returns s'.
Proof.
  induction 1 as [|a l Ha _ IH]; intros s; simpl; [eauto|].
  destruct (Ha s) as (s1 & ->). simpl. apply IH.
Qed.

(** Every key of the dict lies on the canvas. *)
Definition map_on_canvas (c : props) (m : gmap (Z * Z) color) : Prop :=
  forall x y, is_Some (m !! (x, y)) -> 0 <= x < WIDTH c /\ 0 <= y < HEIGHT c.

Definition set_on_canvas (c : props) (s : gset (Z * Z)) : Prop :=
  forall x y, (x, y) ∈ s -> 0 <= x < WIDTH c /\ 0 <= y < HEIGHT c.

(** The coordinates recorded in [object_points]. *)
Definition recorded (fp : frame_points) (p : Z * Z) : Prop :=
  match fp with
  | ColorPoints m => is_Some (m !! p)
  | PlainPoints s => p ∈ s
  end.

Lemma in_bounds_spec c x y :
  in_bounds c x y = true <-> 0 <= x < WIDTH c /\ 0 <= y < HEIGHT c.
Proof.
  unfold in_bounds. rewrite !andb_true_iff, !Z.leb_le, !Z.ltb_lt. lia.
Qed.

Lemma put_colored_on_canvas c m pt m' :
  map_on_canvas c m -> put_colored c m pt = Returns m' -> map_on_canvas c m'.
Proof.
  intros Hm H. destruct pt as [[px py] [col|]]; simpl in H; [|discriminate].
  destruct (in_bounds c px py) eqn:Hb; inversion H; subst; [|exact Hm].
  intros x y Hs. destruct (decide ((px, py) = (x, y))) as [Heq | Hne].
  - inversion Heq; subst. apply in_bounds_spec. exact Hb.
  - rewrite lookup_insert_ne in Hs by exact Hne. apply Hm. exact Hs.
Qed.

Lemma put_plain_on_canvas c s pt s' :
  set_on_canvas c s -> put_plain c s pt = Returns s' -> set_on_canvas c s'.
Proof.
  intros Hs H. destruct pt as [[px py] [col|]]; simpl in H; [discriminate|].
  destruct (in_bounds c px py) eqn:Hb; inversion H; subst; [|exact Hs].
  intros x y Hin. apply elem_of_union in Hin as [Hin | Hin].
  - apply elem_of_singleton in Hin. inversion Hin; subst.
    apply in_bounds_spec. exact Hb.
  - apply Hs. exact Hin.
Qed.

(** Whatever [collect] returns lies on the canvas. *)
Lemma collect_on_canvas fuel c uc rotated projected es fp :
  collect fuel c uc rotated projected es = Returns fp ->
  forall x y, recorded fp (x, y) -> 0 <= x < WIDTH c /\ 0 <= y < HEIGHT c.
Proof.
  unfold collect. destruct uc.
  - destruct (for_each _ es ∅) as [m| |] eqn:Hm; simpl; try discriminate.
    intros H; inversion H; subst; clear H. simpl.
    revert Hm. apply (for_each_keeps (map_on_canvas c)).
    + intros s e s' Hs He. unfold add_colored_edge in He.
      destruct (colored_line fuel rotated projected e) as [pts| |];
        simpl in He; try discriminate.
      revert He. apply (for_each_keeps (map_on_canvas c)); [|exact Hs].
      intros ? ? ?. apply put_colored_on_canvas.
    + intros x y Hs. rewrite lookup_empty in Hs. destruct Hs; discriminate.
  - destruct (for_each _ es ∅) as [s| |] eqn:Hm; simpl; try discriminate.
    intros H; inversion H; subst; clear H. simpl.
    revert Hm. apply (for_each_keeps (set_on_canvas c)).
    + intros s0 e s' Hs He. unfold add_plain_edge in He.
      destruct (plain_line fuel projected e) as [pts| |];
        simpl in He; try discriminate.
      revert He. apply (for_each_keeps (set_on_canvas c)); [|exact Hs].
      intros ? ? ?. apply put_plain_on_canvas.
    + intros x y Hin. apply elem_of_empty in Hin. destruct Hin.
Qed.

(** The largest absolute coordinate among the projected points. *)
Definition extent (projected : list (Z * Z)) : Z :=
  foldr (fun p acc => Z.max (Z.max (Z.abs (fst p)) (Z.abs (snd p))) acc) 0 projected.

(** Fuel that suffices for every line between two projected points. *)
Definition frame_fuel (projected : list (Z * Z)) : nat :=
  S (Z.to_nat (2 * extent projected)).

Lemma extent_bound projected (i : nat) p :
  projected !! i = Some p ->
  Z.abs (fst p) <= extent projected /\ Z.abs (snd p) <= extent projected.
Proof.
  revert i; induction projected as [|q l IH]; intros [|i] H; simpl in *;
    try discriminate.
  - inversion H; subst. lia.
  - destruct (IH i H). lia.
Qed.

Lemma frame_fuel_enough projected (i j : nat) p q :
  projected !! i = Some p -> projected !! j = Some q ->
  (line_fuel (fst p) (snd p) (fst q) (snd q) <= frame_fuel projected)%nat.
Proof.
  intros Hp Hq. destruct (extent_bound _ _ _ Hp), (extent_bound _ _ _ Hq).
  unfold line_fuel, frame_fuel. lia.
Qed.

Lemma emit_tag_some E st :
  is_Some (color1 E) -> is_Some (color2 E) -> is_Some (snd (emit E st)).
Proof.
  intros [[[? ?] ?] H1] [[[? ?] ?] H2]. unfold emit, use_col. rewrite H1, H2. simpl. eauto.
Qed.

Lemma emit_tag_none E st : color1 E = None -> snd (emit E st) = None.
Proof. intros H. unfold emit, use_col. rewrite H. reflexivity. Qed.

Lemma index_lt {A} (l : list A) (i : nat) :
  (i < length l)%nat -> exists a, l !! i = Some a /\ index l i = Returns a.
Proof.
  intros H. destruct (lookup_lt_is_Some_2 l i H) as [a Ha].
  exists a. unfold index. rewrite Ha. auto.
Qed.

(** An edge between valid, colored vertices rasterizes to colored points. *)
Lemma colored_line_returns fuel rotated projected e :
  (fst e < length projected)%nat -> (snd e < length projected)%nat ->
  length rotated = length projected ->
  Forall (fun v : vertex => is_Some (snd v)) rotated ->
  (frame_fuel projected <= fuel)%nat ->
  exists pts, colored_line fuel rotated projected e = Returns pts /\
              Forall (fun p : point => is_Some (snd p)) pts.
Proof.
  destruct e as [i j]; simpl. intros Hi Hj Hlen Hcol Hf.
  destruct (index_lt rotated i ltac:(lia)) as (vi & Hvi & Ei).
  destruct (index_lt rotated j ltac:(lia)) as (vj & Hvj & Ej).
  destruct (index_lt projected i Hi) as (p & Hp & Ep).
  destruct (index_lt projected j Hj) as (q & Hq & Eq).
  unfold colored_line. rewrite Ei, Ej, Ep, Eq. simpl.
  rewrite Forall_lookup in Hcol.
  destruct (Hcol _ _ Hvi) as [ci Hci], (Hcol _ _ Hvj) as [cj Hcj].
  rewrite Hci, Hcj.
  rewrite bresenham_trace
    by (pose proof (frame_fuel_enough _ _ _ _ _ Hp Hq); lia).
  eexists; split; [reflexivity|].
  unfold trace. rewrite Forall_fmap. apply Forall_forall. intros s _.
  apply emit_tag_some; simpl; eauto.
Qed.

Lemma plain_line_returns fuel projected e :
  (fst e < length projected)%nat -> (snd e < length projected)%nat ->
  (frame_fuel projected <= fuel)%nat ->
  exists pts, plain_line fuel projected e = Returns pts /\
              Forall (fun p : point => snd p = None) pts.
Proof.
  destruct e as [i j]; simpl. intros Hi Hj Hf.
  destruct (index_lt projected i Hi) as (p & Hp & Ep).
  destruct (index_lt projected j Hj) as (q & Hq & Eq).
  unfold plain_line. rewrite Ep, Eq. simpl.
  rewrite bresenham_trace
    by (pose proof (frame_fuel_enough _ _ _ _ _ Hp Hq); lia).
  eexists; split; [reflexivity|].
  unfold trace. rewrite Forall_fmap. apply Forall_forall. intros s _.
  apply emit_tag_none. reflexivity.
Qed.

Lemma put_colored_returns c pts :
  Forall (fun p : point => is_Some (snd p)) pts ->
  forall m, exists m', for_each (put_colored c) pts m = Returns m'.
Proof.
  intros H. apply for_each_returns. eapply Forall_impl; [exact H|].
  intros [[px py] tag] [col Hc] m. simpl in Hc; subst tag. simpl.
  destruct (in_bounds c px py); eauto.
Qed.

Lemma put_plain_returns c pts :
  Forall (fun p : point => snd p = None) pts ->
  forall s, exists s', for_each (put_plain c) pts s = Returns s'.
Proof.
  intros H. apply for_each_returns. eapply Forall_impl; [exact H|].
  intros [[px py] tag] Hc s. simpl in Hc; subst tag. simpl.
  destruct (in_bounds c px py); eauto.
Qed.

(** The edges index the projected points. *)
Definition edges_valid (n : nat) (es : list (nat * nat)) : Prop :=
  Forall (fun e => (fst e < n)%nat /\ (snd e < n)%nat) es.

(** In color mode every rotated vertex carries a color. *)
Definition colors_present (uc : bool) (rotated : list vertex)
    (projected : list (Z * Z)) : Prop :=
  uc = true ->
  length rotated = length projected /\
  Forall (fun v : vertex => is_Some (snd v)) rotated.

(** With valid edges, colored vertices in color mode, and enough fuel, the
    compositor returns: no point of a line makes it raise. *)
Lemma collect_returns c uc rotated projected es fuel :
  edges_valid (length projected) es ->
  colors_present uc rotated projected ->
  (frame_fuel projected <= fuel)%nat ->
  exists fp, collect fuel c uc rotated projected es = Returns fp.
Proof.
  intros Hes Hcol Hf. unfold collect. destruct uc.
  - destruct (Hcol eq_refl) as [Hlen Hall].
    destruct (for_each_returns (add_colored_edge fuel c rotated projected) es)
      with (s := (∅ : gmap (Z * Z) color)) as (m & Hm).
    + eapply Forall_impl; [exact Hes|]. intros e [Hi Hj] m.
      destruct (colored_line_returns fuel rotated projected e Hi Hj Hlen Hall Hf)
        as (pts & Hpts & Htag).
      unfold add_colored_edge. rewrite Hpts. simpl.
      apply put_colored_returns. exact Htag.
    + rewrite Hm. simpl. eauto.
  - destruct (for_each_returns (add_plain_edge fuel c projected) es)
      with (s := (∅ : gset (Z * Z))) as (s & Hs).
    + eapply Forall_impl; [exact Hes|]. intros e [Hi Hj] s.
      destruct (plain_line_returns fuel projected e Hi Hj Hf)
        as (pts & Hpts & Htag).
      unfold add_plain_edge. rewrite Hpts. simpl.
      apply put_plain_returns. exact Htag.
    + rewrite Hs. simpl. eauto.
Qed.

(** A point off the canvas leaves [object_points] as it is. *)
Lemma put_off_canvas c px py :
  in_bounds c px py = false ->
  (forall m col, put_colored c m ((px, py), Some col) = Returns m) /\
  (forall s, put_plain c s ((px, py), None) = Returns s).
Proof. intros H. split; intros; simpl; rewrite H; reflexivity. Qed.

(** C6.  For every frame the compositor returns without an error, however
    far off the canvas the rasterized points lie, and every coordinate
    [(x, y)] it records satisfies [0 <= x < width] and [0 <= y < height]:
    points outside are dropped. *)
Theorem collect_within_canvas c uc rotated projected es fuel :
  edges_valid (length projected) es ->
  colors_present uc rotated projected ->
  (frame_fuel projected <= fuel)%nat ->
  exists fp,
    collect fuel c uc rotated projected es = Returns fp /\
    forall x y, recorded fp (x, y) -> 0 <= x < WIDTH c /\ 0 <= y < HEIGHT c.
Proof.
  intros Hes Hcol Hf.
  destruct (collect_returns c uc rotated projected es fuel Hes Hcol Hf)
    as (fp & Hfp).
  exists fp. split; [exact Hfp|].
  apply (collect_on_canvas _ _ _ _ _ _ _ Hfp).
Qed.

(** A line that starts left of the canvas and ends right of it. *)
Lemma collect_within_canvas_witness :
  exists fp,
    collect 25 small_canvas false [] [(-3, 1); (12, 3)] [(0, 1)%nat] = Returns fp /\
    forall x y, recorded fp (x, y) ->
                0 <= x < WIDTH small_canvas /\ 0 <= y < HEIGHT small_canvas.
Proof.
  apply (collect_within_canvas small_canvas false [] [(-3, 1); (12, 3)]
           [(0, 1)%nat] 25).
  - unfold edges_valid. simpl. repeat constructor.
  - intros H. discriminate H.
  - vm_compute. lia.
Defined.

(** ** Overlapping edges *)

(** The color an edge's own writes leave at coordinate [p]: that of the
    last point of its line at [p], if there is one. *)
Fixpoint contribution (pts : list point) (p : Z * Z) : option color :=
  match pts with
  | [] => None
  | pt :: rest =>
      match contribution rest p with
      | Some col => Some col
      | None => if decide (fst pt = p) then snd pt else None
      end
  end.

(** After the writes of one line, a cell on the canvas holds the line's
    contribution, or what it held before when the line misses it. *)
Lemma put_colored_lookup c pts : forall m m' x y,
  for_each (put_colored c) pts m = Returns m' ->
  in_bounds c x y = true ->
  m' !! (x, y) = match contribution pts (x, y) with
                 | Some col => Some col
                 | None => m !! (x, y)
                 end.
Proof.
  induction pts as [|pt rest IH]; intros m m' x y H Hb; simpl in H.
  - inversion H; reflexivity.
  - destruct (put_colored c m pt) as [m1| |] eqn:Hput; simpl in H;
      try discriminate.
    rewrite (IH _ _ _ _ H Hb). simpl.
    destruct (contribution rest (x, y)) as [col|]; [reflexivity|].
    destruct pt as [[px py] [col|]]; simpl in Hput; [|discriminate].
    simpl. destruct (decide ((px, py) = (x, y))) as [Heq | Hne].
    + inversion Heq; subst. rewrite Hb in Hput. inversion Hput; subst.
      apply lookup_insert_eq.
    + destruct (in_bounds c px py); inversion Hput; subst; [|reflexivity].
      apply lookup_insert_ne. exact Hne.
Qed.

Lemma contribution_missing pts p :
  p ∉ (fst <$> pts) -> contribution pts p = None.
Proof.
  induction pts as [|pt rest IH]; intros H; simpl; [reflexivity|].
  rewrite fmap_cons, not_elem_of_cons in H. destruct H as [Hne Hrest].
  rewrite (IH Hrest). destruct (decide (fst pt = p)); [congruence | reflexivity].
Qed.

(** Where no cell is visited twice, the contribution at a cell is the tag
    of the one point there. *)
Lemma contribution_member pts p tag :
  NoDup (fst <$> pts) -> (p, tag) ∈ pts -> contribution pts p = tag.
Proof.
  induction pts as [|pt rest IH]; intros Hnd Hin.
  - apply elem_of_nil in Hin. destruct Hin.
  - rewrite fmap_cons in Hnd. apply NoDup_cons in Hnd as [Hfresh Hnd].
    apply elem_of_cons in Hin as [<- | Hin]; simpl.
    + simpl in Hfresh. rewrite (contribution_missing _ _ Hfresh).
      destruct (decide (p = p)); [reflexivity | congruence].
    + rewrite (IH Hnd Hin). destruct tag; [reflexivity|].
      destruct (decide (fst pt = p)) as [Heq | ?]; [|reflexivity].
      exfalso. apply Hfresh. rewrite Heq.
      apply (list_elem_of_fmap_2 fst) in Hin. exact Hin.
Qed.

Lemma colored_line_NoDup fuel rotated projected e pts :
  colored_line fuel rotated projected e = Returns pts -> NoDup (fst <$> pts).
Proof.
  destruct e as [i j]. unfold colored_line.
  destruct (index rotated i) as [vi| |]; simpl; try discriminate.
  destruct (index rotated j) as [vj| |]; simpl; try discriminate.
  destruct (index projected i) as [p| |]; simpl; try discriminate.
  destruct (index projected j) as [q| |]; simpl; try discriminate.
  destruct (snd vi) as [ci|], (snd vj) as [cj|]; try discriminate.
  destruct (bresenham _ _ _ _ _ _ _) as [l|] eqn:Hb; simpl; try discriminate.
  intros H; inversion H; subst. apply (bresenham_NoDup _ _ _ _ _ _ _ _ Hb).
Qed.

(** The rasterized line of edge [e] covers the cell [p] with color [col]. *)
Definition covers (fuel : nat) (rotated : list vertex)
    (projected : list (Z * Z)) (e : nat * nat) (p : Z * Z) (col : color) : Prop :=
  exists pts, colored_line fuel rotated projected e = Returns pts /\
              (p, Some col) ∈ pts.

(** The rasterized line of edge [e] does not pass through the cell [p]. *)
Definition misses (fuel : nat) (rotated : list vertex)
    (projected : list (Z * Z)) (p : Z * Z) (e : nat * nat) : Prop :=
  forall pts, colored_line fuel rotated projected e = Returns pts ->
              p ∉ (fst <$> pts).

(** An edge whose line misses the cell leaves it as it was. *)
Lemma add_colored_edges_miss fuel c rotated projected x y es :
  Forall (misses fuel rotated projected (x, y)) es ->
  in_bounds c x y = true ->
  forall m m',
    for_each (add_colored_edge fuel c rotated projected) es m = Returns m' ->
    m' !! (x, y) = m !! (x, y).
Proof.
  intros Hes Hb. induction Hes as [|e es He _ IH]; intros m m' H; simpl in H.
  - inversion H; reflexivity.
  - destruct (add_colored_edge fuel c rotated projected m e) as [m1| |] eqn:H1;
      simpl in H; try discriminate.
    rewrite (IH _ _ H). unfold add_colored_edge in H1.
    destruct (colored_line fuel rotated projected e) as [pts| |] eqn:Hl;
      simpl in H1; try discriminate.
    rewrite (put_colored_lookup _ _ _ _ _ _ H1 Hb).
    rewrite (contribution_missing _ _ (He pts Hl)). reflexivity.
Qed.

(** The last edge that covers a cell decides its color. *)
Lemma last_covering_edge_wins fuel c rotated projected es1 e es2 m x y col :
  for_each (add_colored_edge fuel c rotated projected) (es1 ++ e :: es2) ∅
    = Returns m ->
  in_bounds c x y = true ->
  covers fuel rotated projected e (x, y) col ->
  Forall (misses fuel rotated projected (x, y)) es2 ->
  m !! (x, y) = Some col.
Proof.
  intros H Hb (pts & Hl & Hin) Hmiss. rewrite for_each_app in H.
  destruct (for_each _ es1 ∅) as [m0| |]; simpl in H; try discriminate.
  destruct (add_colored_edge fuel c rotated projected m0 e) as [m1| |] eqn:H1;
    simpl in H; try discriminate.
  rewrite (add_colored_edges_miss _ _ _ _ _ _ _ Hmiss Hb _ _ H).
  unfold add_colored_edge in H1. rewrite Hl in H1. simpl in H1.
  rewrite (put_colored_lookup _ _ _ _ _ _ H1 Hb).
  rewrite (contribution_member _ _ _ (colored_line_NoDup _ _ _ _ _ Hl) Hin).
  reflexivity.
Qed.

(** Three lines of different colors that cross at the cell (2, 2). *)
Definition red : color := (255, 0, 0).
Definition green : color := (0, 255, 0).
Definition blue : color := (0, 0, 255).

Definition crossing_rotated : list vertex :=
  (fun col => ((0, 0, 0)%Q, Some col)) <$> [red; red; green; green; blue; blue].

Definition crossing_projected : list (Z * Z) :=
  [(0, 2); (4, 2); (2, 0); (2, 4); (0, 0); (4, 4)].

Definition crossing_edges : list (nat * nat) :=
  [(0, 1); (2, 3); (4, 5)]%nat.

Lemma crossing_lines :
  colored_line 9 crossing_rotated crossing_projected (0, 1)%nat
  = Returns [((0, 2), Some red); ((1, 2), Some red); ((2, 2), Some red);
             ((3, 2), Some red); ((4, 2), Some red)] /\
  colored_line 9 crossing_rotated crossing_projected (2, 3)%nat
  = Returns [((2, 0), Some green); ((2, 1), Some green); ((2, 2), Some green);
             ((2, 3), Some green); ((2, 4), Some green)] /\
  colored_line 9 crossing_rotated crossing_projected (4, 5)%nat
  = Returns [((0, 0), Some blue); ((1, 1), Some blue); ((2, 2), Some blue);
             ((3, 3), Some blue); ((4, 4), Some blue)].
Proof. repeat split; vm_compute; reflexivity. Qed.

(** C5, as stated, fails: the first two of three crossing edges cover
    (2, 2) with red and green, the later of the two being the green one,
    and the frame holds the blue of the third edge there. *)
Lemma overlap_pair_counterexample :
  exists m,
    collect 9 small_canvas true crossing_rotated crossing_projected
      crossing_edges = Returns (ColorPoints m) /\
    in_bounds small_canvas 2 2 = true /\
    covers 9 crossing_rotated crossing_projected (0, 1)%nat (2, 2) red /\
    covers 9 crossing_rotated crossing_projected (2, 3)%nat (2, 2) green /\
    m !! (2, 2) = Some blue.
Proof.
  destruct crossing_lines as (L1 & L2 & _).
  eexists. split; [vm_compute; reflexivity|].
  split; [reflexivity|]. split; [|split].
  - eexists. split; [exact L1|]. rewrite !elem_of_cons. auto.
  - eexists. split; [exact L2|]. rewrite !elem_of_cons. auto.
  - vm_compute. reflexivity.
Qed.

(** C5, amended.  In color mode, when two edges both cover a cell of the
    canvas with different colors and no edge after the later of the two
    covers that cell, the frame holds there the color contributed by the
    later one: the last write wins, and nothing is blended. *)
Theorem later_edge_wins fuel c rotated projected es0 e1 es1 e2 es2
    x y col1 col2 :
  edges_valid (length projected) (es0 ++ e1 :: es1 ++ e2 :: es2) ->
  colors_present true rotated projected ->
  (frame_fuel projected <= fuel)%nat ->
  in_bounds c x y = true ->
  covers fuel rotated projected e1 (x, y) col1 ->
  covers fuel rotated projected e2 (x, y) col2 ->
  col1 <> col2 ->
  Forall (misses fuel rotated projected (x, y)) es2 ->
  exists m,
    collect fuel c true rotated projected (es0 ++ e1 :: es1 ++ e2 :: es2)
      = Returns (ColorPoints m) /\
    m !! (x, y) = Some col2.
Proof.
  intros Hes Hcol Hf Hb Hc1 Hc2 Hne Hmiss.
  destruct (collect_returns c true rotated projected _ fuel Hes Hcol Hf)
    as (fp & Hfp).
  unfold collect in Hfp |- *.
  destruct (for_each _ (es0 ++ e1 :: es1 ++ e2 :: es2) ∅) as [m| |] eqn:Hm;
    simpl in Hfp; try discriminate.
  exists m. split; [reflexivity|].
  replace (es0 ++ e1 :: es1 ++ e2 :: es2)
    with ((es0 ++ e1 :: es1) ++ e2 :: es2) in Hm
    by (rewrite <- app_assoc; reflexivity).
  exact (last_covering_edge_wins _ _ _ _ _ _ _ _ _ _ _ Hm Hb Hc2 Hmiss).
Qed.

(** The red and the green line, followed by an edge from (0, 2) to (2, 0),
    which passes (1, 1) and misses the crossing. *)
Lemma later_edge_wins_witness :
  exists m,
    collect 9 small_canvas true crossing_rotated crossing_projected
      ([] ++ (0, 1)%nat :: [] ++ (2, 3)%nat :: [(0, 2)%nat])
      = Returns (ColorPoints m) /\
    m !! (2, 2) = Some green.
Proof.
  destruct crossing_lines as (L1 & L2 & _).
  apply (later_edge_wins 9 small_canvas crossing_rotated crossing_projected
           [] (0, 1)%nat [] (2, 3)%nat [(0, 2)%nat] 2 2 red green).
  - unfold edges_valid. simpl. repeat constructor.
  - intros _. split; [reflexivity|]. unfold crossing_rotated. simpl.
    repeat constructor; eexists; reflexivity.
  - vm_compute. lia.
  - reflexivity.
  - eexists. split; [exact L1|]. rewrite !elem_of_cons. auto.
  - eexists. split; [exact L2|]. rewrite !elem_of_cons. auto.
  - discriminate.
  - constructor; [|constructor]. intros pts H. vm_compute in H.
    inversion H; subst pts. simpl.
    rewrite !elem_of_cons, elem_of_nil. intros [E | [E | [E | []]]]; discriminate.
Defined.

(** ** An empty vertex list *)

Lemma run_terminated cos sin fuel prog n e :
  run cos sin fuel prog n (Terminated e) = ([], Terminated e).
Proof. induction n as [|n IH]; simpl; [|rewrite IH]; reflexivity. Qed.






(** [math.cos] and [math.sin] at the angle 0, the only angle a script with
    rotation speeds 0 ever reaches. *)
Definition cos_at_rest (a : Q) : Q := 1.
Definition sin_at_rest (a : Q) : Q := 0.





(** A script the exporter writes always has a vertex. *)
Lemma map_each_length {A B} (f : A -> outcome B) l l' :
  map_each f l = Returns l' -> length l' = length l.
Proof.
  revert l'; induction l as [|a l IH]; intros l' H; simpl in H.
  - inversion H; reflexivity.
  - destruct (f a); simpl in H; try discriminate.
    destruct (map_each f l) as [bs| |]; simpl in H; try discriminate.
    inversion H; subst. simpl. f_equal. apply IH. reflexivity.
Qed.

Lemma export_vertices_length vec_length m ic l :
  export_vertices vec_length m ic = Returns l ->
  length l = length (mesh_vertices m).
Proof.
  unfold export_vertices.
  destruct (Z.of_nat (length (mesh_vertices m)) =? 0); simpl; [discriminate|].
  destruct (py_max _) as [d| |]; simpl; try discriminate.
  destruct ic as [color_attr|].
  - intros H. apply map_each_length in H. rewrite H. apply length_imap.
  - intros H. inversion H. apply length_fmap.
Qed.

Lemma exported_script_has_vertices vec_length filepath obj p r prog :
  execute vec_length filepath obj p = Returns r -> written r = Some prog ->
  vertices prog <> [].
Proof.
  unfold execute. destruct obj as [| |m].
  - intros H; inversion H; subst; discriminate.
  - intros H; inversion H; subst; discriminate.
  - destruct (length (mesh_vertices m) =? 0)%nat eqn:Hn.
    + intros H; inversion H; subst; discriminate.
    + destruct (export_vertices vec_length m _) as [l| |] eqn:Hl; simpl;
        try discriminate.
      intros H Hw; inversion H; subst; simpl in Hw; inversion Hw; subst; simpl.
      apply export_vertices_length in Hl. apply Nat.eqb_neq in Hn.
      intros ->. simpl in Hl. lia.
Qed.

(** ** A whole frame *)

(** The defaults of the exporter's properties. *)
Definition default_props : props :=
  {| width := 80; height := 24; scale_x := 20; scale_y := 10; dist := 4;
     line_char := "#"; pause := 1 # 20;
     rot_speed_x := 3 # 100; rot_speed_y := 2 # 100; rot_speed_z := 1 # 100;
     use_vertex_colors := false |}.

(** A single edge along the x axis. *)
Definition segment : script :=
  {| constants := default_props;
     vertices := [((-1, 0, 0)%Q, None); ((1, 0, 0)%Q, None)];
     edges := [(0, 1)%nat] |}.

Fixpoint repeat_string (n : nat) (s : string) : string :=
  match n with
  | O => ""
  | S n' => s +:+ repeat_string n' s
  end.

(** Before any rotation the two vertices project to the columns 26 and 53
    of the middle row, and the frame connects them by a run of fill
    characters. *)
Example frame_segment :
  frame cos_at_rest sin_at_rest 30 segment
    {| angle_x := 0; angle_y := 0; angle_z := 0 |}
  = Returns (repeat_string 12 (repeat_string 80 " " +:+ newline)
             +:+ (repeat_string 26 " " +:+ repeat_string 28 "#"
                  +:+ repeat_string 26 " " +:+ newline)
             +:+ repeat_string 11 (repeat_string 80 " " +:+ newline)).
Proof. vm_compute. reflexivity. Qed.

(** * More about the rasterizer *)

(** Every point of a returned line is emitted in a state that satisfies the
    loop invariant, at the iteration given by its position. *)
Lemma bresenham_lookup fuel x1 y1 x2 y2 c1 c2 pts (i : nat) p :
  bresenham fuel x1 y1 x2 y2 c1 c2 = Some pts ->
  pts !! i = Some p ->
  exists s a b,
    states (line_env_of x1 y1 x2 y2 c1 c2) (span x1 y1 x2 y2)
      (initial_state x1 y1 x2 y2) !! i = Some s /\
    p = emit (line_env_of x1 y1 x2 y2 c1 c2) s /\
    Inv (line_env_of x1 y1 x2 y2 c1 c2) x1 y1 a b s /\
    k s = Z.of_nat i.
Proof.
  intros H Hi.
  destruct (Nat.lt_ge_cases fuel (line_fuel x1 y1 x2 y2)) as [Hlt | Hge].
  { rewrite bresenham_short in H by exact Hlt. discriminate. }
  rewrite bresenham_trace in H by exact Hge. inversion H; subst pts; clear H.
  unfold trace in Hi. rewrite list_lookup_fmap in Hi.
  destruct (states _ _ _ !! i) as [s|] eqn:Hs; [|discriminate].
  inversion Hi; subst p; clear Hi.
  pose proof (states_Inv _ x1 y1 (line_env_of_wf x1 y1 x2 y2 c1 c2)
                (span x1 y1 x2 y2) _ 0 0 (initial_Inv x1 y1 x2 y2 c1 c2)) as HF.
  specialize (HF ltac:(unfold span; simpl; lia)).
  rewrite Forall_lookup in HF. destruct (HF _ _ Hs) as (a & b & HI).
  exists s, a, b. split; [reflexivity|]. split; [reflexivity|].
  split; [exact HI|]. apply states_k in Hs. simpl in Hs. lia.
Qed.

(** The step of the loop along x and along y. *)
Definition step_x (x1 x2 : Z) : Z := if x1 <? x2 then 1 else -1.
Definition step_y (y1 y2 : Z) : Z := if y1 <? y2 then 1 else -1.

(** X1.  A line has exactly one point per cell of its dominant axis: the
    point at position [i] lies [i] cells from the start along x when
    [|y2 - y1| <= |x2 - x1|], and along y otherwise; the line has exactly
    [max(|x2 - x1|, |y2 - y1|) + 1] points. *)
Theorem bresenham_dominant_axis fuel x1 y1 x2 y2 c1 c2 pts :
  bresenham fuel x1 y1 x2 y2 c1 c2 = Some pts ->
  Z.of_nat (length pts) = Z.max (Z.abs (x2 - x1)) (Z.abs (y2 - y1)) + 1 /\
  forall (i : nat) x y tag,
    pts !! i = Some ((x, y), tag) ->
    (Z.abs (y2 - y1) <= Z.abs (x2 - x1) -> x = x1 + step_x x1 x2 * Z.of_nat i) /\
    (Z.abs (x2 - x1) < Z.abs (y2 - y1) -> y = y1 + step_y y1 y2 * Z.of_nat i).
Proof.
  intros H. split; [exact (bresenham_length _ _ _ _ _ _ _ _ H)|].
  intros i x y tag Hi.
  destruct (bresenham_lookup _ _ _ _ _ _ _ _ _ _ H Hi)
    as (s & a & b & _ & Hp & HI & Hk).
  apply (f_equal fst) in Hp. rewrite emit_fst in Hp. simpl in Hp.
  inversion Hp; subst x y; clear Hp.
  destruct HI as (Hx & Hy & _ & _ & _ & Hxd & Hyd). simpl in *.
  split; intros Hdom.
  - destruct (Hxd Hdom) as [Ha _]. unfold step_x. rewrite Hx. f_equal.
    f_equal. lia.
  - destruct (Hyd Hdom) as [Hb _]. unfold step_y. rewrite Hy. f_equal.
    f_equal. lia.
Qed.

Lemma bresenham_dominant_axis_witness :
  Z.of_nat (length [((3, 7), None : option color); ((2, 8), None); ((1, 8), None);
                    ((0, 9), None)])
  = Z.max (Z.abs (0 - 3)) (Z.abs (9 - 7)) + 1 /\
  forall (i : nat) x y tag,
    [((3, 7), None : option color); ((2, 8), None); ((1, 8), None); ((0, 9), None)]
      !! i = Some ((x, y), tag) ->
    (Z.abs (9 - 7) <= Z.abs (0 - 3) -> x = 3 + step_x 3 0 * Z.of_nat i) /\
    (Z.abs (0 - 3) < Z.abs (9 - 7) -> y = 7 + step_y 7 9 * Z.of_nat i).
Proof. apply (bresenham_dominant_axis 5 3 7 0 9 None None). reflexivity. Defined.

(** The line stays in the box spanned by its endpoints. *)
Lemma bresenham_in_box fuel x1 y1 x2 y2 c1 c2 pts x y tag :
  bresenham fuel x1 y1 x2 y2 c1 c2 = Some pts ->
  ((x, y), tag) ∈ pts ->
  Z.min x1 x2 <= x <= Z.max x1 x2 /\ Z.min y1 y2 <= y <= Z.max y1 y2.
Proof.
  intros H Hin. apply list_elem_of_lookup in Hin as [i Hi].
  destruct (bresenham_lookup _ _ _ _ _ _ _ _ _ _ H Hi)
    as (s & a & b & _ & Hp & HI & _).
  apply (f_equal fst) in Hp. rewrite emit_fst in Hp. simpl in Hp.
  inversion Hp; subst x y; clear Hp.
  destruct HI as (Hx & Hy & Ha & Hb & _). simpl in *.
  rewrite Hx, Hy.
  destruct (Z.ltb_spec x1 x2), (Z.ltb_spec y1 y2); lia.
Qed.

(** X2.  A line between two cells of the canvas never leaves the canvas:
    the compositor drops none of its points. *)
Theorem bresenham_on_canvas c fuel x1 y1 x2 y2 c1 c2 pts :
  in_bounds c x1 y1 = true ->
  in_bounds c x2 y2 = true ->
  bresenham fuel x1 y1 x2 y2 c1 c2 = Some pts ->
  Forall (fun p : point => in_bounds c (fst (fst p)) (snd (fst p)) = true) pts.
Proof.
  intros H1 H2 H. apply in_bounds_spec in H1, H2.
  apply Forall_forall. intros [[x y] tag] Hin. simpl.
  apply in_bounds_spec.
  destruct (bresenham_in_box _ _ _ _ _ _ _ _ _ _ _ H Hin). lia.
Qed.

Lemma bresenham_on_canvas_witness :
  Forall (fun p : point =>
            in_bounds small_canvas (fst (fst p)) (snd (fst p)) = true)
    [((9, 0), None); ((8, 1), None); ((7, 2), None); ((6, 3), None);
     ((5, 4), None)].
Proof.
  apply (bresenham_on_canvas small_canvas 5 9 0 5 4 None None); reflexivity.
Defined.

(** Consecutive entries of [states] are one [advance] apart. *)
Lemma states_succ E n : forall st (i : nat) s s',
  states E n st !! i = Some s -> states E n st !! S i = Some s' ->
  s' = advance E s.
Proof.
  induction n as [|n IH]; intros st [|i] s s' Hi Hj; simpl in Hi, Hj.
  - discriminate.
  - discriminate.
  - destruct n; simpl in Hj; inversion Hi; inversion Hj; subst; reflexivity.
  - exact (IH _ _ _ _ Hi Hj).
Qed.

(** One [advance] moves by at most one cell along each axis. *)
Lemma advance_moves E s :
  (current_x (advance E s) = current_x s \/
   current_x (advance E s) = current_x s + sx E) /\
  (current_y (advance E s) = current_y s \/
   current_y (advance E s) = current_y s + sy E).
Proof.
  unfold advance.
  destruct (2 * err s >? - dy E), (2 * err s <? dx E); simpl; auto.
Qed.

(** X3.  A line is connected: two consecutive points differ by at most one
    cell along each axis, and they are different cells. *)
Theorem bresenham_connected fuel x1 y1 x2 y2 c1 c2 pts (i : nat) x y tag x' y' tag' :
  bresenham fuel x1 y1 x2 y2 c1 c2 = Some pts ->
  pts !! i = Some ((x, y), tag) ->
  pts !! S i = Some ((x', y'), tag') ->
  Z.abs (x' - x) <= 1 /\ Z.abs (y' - y) <= 1 /\ (x', y') <> (x, y).
Proof.
  intros H Hi Hj.
  destruct (bresenham_lookup _ _ _ _ _ _ _ _ _ _ H Hi)
    as (s & a & b & Hs & Hp & _ & _).
  destruct (bresenham_lookup _ _ _ _ _ _ _ _ _ _ H Hj)
    as (s' & a' & b' & Hs' & Hp' & _ & _).
  rewrite (states_succ _ _ _ _ _ _ Hs Hs') in Hp'.
  apply (f_equal fst) in Hp, Hp'. rewrite emit_fst in Hp, Hp'. simpl in Hp, Hp'.
  inversion Hp; subst x y; clear Hp. inversion Hp'; subst x' y'; clear Hp'.
  destruct (advance_moves (line_env_of x1 y1 x2 y2 c1 c2) s) as [Mx My].
  simpl in Mx, My.
  split; [|split].
  - destruct Mx as [-> | ->]; destruct (x1 <? x2); lia.
  - destruct My as [-> | ->]; destruct (y1 <? y2); lia.
  - intros Heq.
    pose proof (bresenham_NoDup _ _ _ _ _ _ _ _ H) as Hnd.
    assert (Hi' : (fst <$> pts) !! i = Some (current_x s, current_y s)).
    { rewrite list_lookup_fmap. exact (f_equal (fmap fst) Hi). }
    assert (Hj' : (fst <$> pts) !! S i = Some (current_x s, current_y s)).
    { rewrite list_lookup_fmap, <- Heq. exact (f_equal (fmap fst) Hj). }
    pose proof (NoDup_lookup _ _ _ _ Hnd Hi' Hj'). lia.
Qed.

Lemma bresenham_connected_witness :
  Z.abs (1 - 2) <= 1 /\ Z.abs (8 - 8) <= 1 /\ (1, 8) <> (2, 8).
Proof.
  apply (bresenham_connected 5 3 7 0 9 None None
           [((3, 7), None); ((2, 8), None); ((1, 8), None); ((0, 9), None)]
           1 2 8 None 1 8 None); reflexivity.
Defined.

(** ** Distance to the ideal line *)

(** Twice the cross product of the walked offset with the direction of the
    line is at most the longer side: the point is within half a cell of the
    ideal line, measured along the minor axis. *)
Definition Near (E : line_env) (a b : Z) : Prop :=
  - Z.max (dx E) (dy E) <= 2 * (dx E * b - dy E * a) <= Z.max (dx E) (dy E).

Lemma Near_advance E x1 y1 (WF : wf_env E x1 y1) a b st :
  Inv E x1 y1 a b st -> Near E a b -> at_target E st = false ->
  exists a' b', Inv E x1 y1 a' b' (advance E st) /\ Near E a' b'.
Proof.
  intros HI HN Hnt.
  destruct (Inv_advance E x1 y1 WF a b st HI Hnt) as (a' & b' & HI').
  exists a', b'. split; [exact HI'|].
  destruct HI as (Hx & Hy & Ha & Hb & He & _).
  destruct HI' as (Hx' & Hy' & Ha' & Hb' & _).
  pose proof (wf_dx _ _ _ WF). pose proof (wf_dy _ _ _ WF).
  unfold Near in *. unfold advance in Hx', Hy'.
  destruct (Z.gtb_spec (2 * err st) (- dy E)) as [Gx | Gx];
    destruct (Z.ltb_spec (2 * err st) (dx E)) as [Gy | Gy];
    simpl in Hx', Hy'.
  - assert (a' = a + 1) by (destruct (wf_sx _ _ _ WF) as [Hs | Hs]; rewrite Hs in *; lia).
    assert (b' = b + 1) by (destruct (wf_sy _ _ _ WF) as [Hs | Hs]; rewrite Hs in *; lia).
    subst a' b'. nia.
  - assert (a' = a + 1) by (destruct (wf_sx _ _ _ WF) as [Hs | Hs]; rewrite Hs in *; lia).
    assert (b' = b) by (destruct (wf_sy _ _ _ WF) as [Hs | Hs]; rewrite Hs in *; lia).
    subst a' b'. nia.
  - assert (a' = a) by (destruct (wf_sx _ _ _ WF) as [Hs | Hs]; rewrite Hs in *; lia).
    assert (b' = b + 1) by (destruct (wf_sy _ _ _ WF) as [Hs | Hs]; rewrite Hs in *; lia).
    subst a' b'. nia.
  - assert (a' = a) by (destruct (wf_sx _ _ _ WF) as [Hs | Hs]; rewrite Hs in *; lia).
    assert (b' = b) by (destruct (wf_sy _ _ _ WF) as [Hs | Hs]; rewrite Hs in *; lia).
    subst a' b'. exact HN.
Qed.

Lemma states_Near E x1 y1 (WF : wf_env E x1 y1) n : forall st a b,
  Inv E x1 y1 a b st -> Near E a b ->
  Z.of_nat n = Z.max (dx E) (dy E) - k st ->
  Forall (fun s => exists a' b', Inv E x1 y1 a' b' s /\ Near E a' b')
    (states E n st).
Proof.
  induction n as [|n IH]; intros st a b HI HN Hn; simpl.
  - constructor; [eauto | constructor].
  - constructor; [eauto|].
    assert (Hnt : at_target E st = false)
      by (apply (not_at_target_before_end E x1 y1 WF a b st HI); lia).
    destruct (Near_advance E x1 y1 WF a b st HI HN Hnt) as (a' & b' & HI' & HN').
    apply (IH _ a' b' HI' HN'). rewrite advance_k. lia.
Qed.

(** X4.  Every point [(x, y)] of a line is within half a cell of the ideal
    line through the endpoints: twice the cross product of [(x, y) - P1]
    with [P2 - P1] is at most [max(|x2 - x1|, |y2 - y1|)] in absolute
    value. *)
Theorem bresenham_near_line fuel x1 y1 x2 y2 c1 c2 pts x y tag :
  bresenham fuel x1 y1 x2 y2 c1 c2 = Some pts ->
  ((x, y), tag) ∈ pts ->
  2 * Z.abs ((x2 - x1) * (y - y1) - (y2 - y1) * (x - x1))
  <= Z.max (Z.abs (x2 - x1)) (Z.abs (y2 - y1)).
Proof.
  intros H Hin.
  destruct (Nat.lt_ge_cases fuel (line_fuel x1 y1 x2 y2)) as [Hlt | Hge].
  { rewrite bresenham_short in H by exact Hlt. discriminate. }
  rewrite bresenham_trace in H by exact Hge. inversion H; subst pts; clear H.
  unfold trace in Hin. apply list_elem_of_fmap in Hin as (s & Hp & Hs).
  pose proof (line_env_of_wf x1 y1 x2 y2 c1 c2) as WF.
  pose proof (states_Near _ x1 y1 WF (span x1 y1 x2 y2) _ 0 0
                (initial_Inv x1 y1 x2 y2 c1 c2)) as HF.
  assert (HN0 : Near (line_env_of x1 y1 x2 y2 c1 c2) 0 0)
    by (unfold Near; simpl; lia).
  specialize (HF HN0 ltac:(unfold span; simpl; lia)).
  rewrite Forall_forall in HF.
  destruct (HF s Hs) as (a & b & (Hx & Hy & _) & HN).
  apply (f_equal fst) in Hp. rewrite emit_fst in Hp. simpl in Hp.
  inversion Hp; subst x y; clear Hp.
  unfold Near in HN. simpl in *. rewrite Hx, Hy.
  set (D := Z.abs (x2 - x1) * b - Z.abs (y2 - y1) * a) in *.
  assert (HC : (x2 - x1) * (y1 + (if y1 <? y2 then 1 else -1) * b - y1)
               - (y2 - y1) * (x1 + (if x1 <? x2 then 1 else -1) * a - x1) = D
               \/
               (x2 - x1) * (y1 + (if y1 <? y2 then 1 else -1) * b - y1)
               - (y2 - y1) * (x1 + (if x1 <? x2 then 1 else -1) * a - x1) = - D).
  { unfold D.
    destruct (Z.ltb_spec x1 x2), (Z.ltb_spec y1 y2);
      destruct (Z.abs_spec (x2 - x1)) as [[? Hax] | [? Hax]];
      destruct (Z.abs_spec (y2 - y1)) as [[? Hay] | [? Hay]];
      rewrite Hax, Hay; try lia;
      try (assert (Ex : x2 - x1 = 0) by lia; rewrite Ex);
      try (assert (Ey : y2 - y1 = 0) by lia; rewrite Ey);
      first [left; ring | right; ring]. }
  destruct HC as [-> | ->]; lia.
Qed.

Lemma bresenham_near_line_witness :
  2 * Z.abs ((0 - 3) * (8 - 7) - (9 - 7) * (1 - 3))
  <= Z.max (Z.abs (0 - 3)) (Z.abs (9 - 7)).
Proof.
  apply (bresenham_near_line 5 3 7 0 9 None None
           [((3, 7), None); ((2, 8), None); ((1, 8), None); ((0, 9), None)]
           1 8 None).
  - reflexivity.
  - rewrite !elem_of_cons. auto.
Defined.

(** ** The color gradient *)







(** * More about the rotation *)

Section RotationMore.
Local Open Scope R_scope.

Lemma turn_norm u v a :
  (u * cos a - v * sin a) * (u * cos a - v * sin a)
  + (u * sin a + v * cos a) * (u * sin a + v * cos a)
  = u * u + v * v.
Proof.
  pose proof (sin2_cos2 a) as H. unfold Rsqr in H.
  transitivity ((u * u + v * v) * (sin a * sin a + cos a * cos a));
    [ring | rewrite H; ring].
Qed.

(** The squared length of a point. *)
Definition norm2 (p : R * R * R) : R :=
  let '(x, y, z) := p in x * x + y * y + z * z.

Lemma rotate_point_norm x y z ax ay az :
  norm2 (rotate_point x y z ax ay az) = norm2 (x, y, z).
Proof.
  rewrite rotate_point_eq. cbv zeta. unfold norm2.
  set (y1 := y * cos ax - z * sin ax).
  set (z1 := y * sin ax + z * cos ax).
  set (x2 := x * cos ay + z1 * sin ay).
  pose proof (turn_norm y z ax) as Hx. fold y1 z1 in Hx.
  pose proof (turn_norm x2 y1 az) as Hz.
  assert (Hy : x2 * x2 + (- x * sin ay + z1 * cos ay) * (- x * sin ay + z1 * cos ay)
               = x * x + z1 * z1).
  { unfold x2. pose proof (sin2_cos2 ay) as H. unfold Rsqr in H.
    transitivity ((x * x + z1 * z1) * (sin ay * sin ay + cos ay * cos ay));
      [ring | rewrite H; ring]. }
  lra.
Qed.

(** X6.  [rotate_point] is rigid: the rotated point is as far from the
    origin as the point it was given.  So a vertex of the unit ball stays
    in the unit ball, whatever the angles: each rotated coordinate lies in
    [-1, 1], and the depth that enters the perspective divisor is at least
    -1. *)
Theorem rotate_point_rigid x y z ax ay az :
  norm2 (rotate_point x y z ax ay az) = norm2 (x, y, z) /\
  (x * x + y * y + z * z <= 1 ->
   let '(x', y', z') := rotate_point x y z ax ay az in
   -1 <= x' <= 1 /\ -1 <= y' <= 1 /\ -1 <= z' <= 1).
Proof.
  pose proof (rotate_point_norm x y z ax ay az) as Hn.
  split; [exact Hn|]. intros H.
  destruct (rotate_point x y z ax ay az) as [[x' y'] z'].
  unfold norm2 in Hn. repeat split; nra.
Qed.

Lemma rotate_point_rigid_witness :
  let '(x', y', z') := rotate_point 1 0 0 0 0 0 in
  -1 <= x' <= 1 /\ -1 <= y' <= 1 /\ -1 <= z' <= 1.
Proof. apply (proj2 (rotate_point_rigid 1 0 0 0 0 0)). lra. Defined.

(** X7.  Turning about one axis twice adds the angles, and a full turn
    added to any of the three angles changes nothing: the accumulated
    angles need never be wrapped. *)
Theorem rotate_point_angles x y z a b c :
  (let '(x', y', z') := rotate_point x y z a 0 0 in
   rotate_point x' y' z' b 0 0 = rotate_point x y z (a + b) 0 0) /\
  (let '(x', y', z') := rotate_point x y z 0 a 0 in
   rotate_point x' y' z' 0 b 0 = rotate_point x y z 0 (a + b) 0) /\
  (let '(x', y', z') := rotate_point x y z 0 0 a in
   rotate_point x' y' z' 0 0 b = rotate_point x y z 0 0 (a + b)) /\
  rotate_point x y z (a + 2 * PI) b c = rotate_point x y z a b c /\
  rotate_point x y z a (b + 2 * PI) c = rotate_point x y z a b c /\
  rotate_point x y z a b (c + 2 * PI) = rotate_point x y z a b c.
Proof.
  assert (Hc : forall t, cos (t + 2 * PI) = cos t).
  { intros t. rewrite cos_plus, cos_2PI, sin_2PI. ring. }
  assert (Hs : forall t, sin (t + 2 * PI) = sin t).
  { intros t. rewrite sin_plus, cos_2PI, sin_2PI. ring. }
  split; [|split; [|split; [|split; [|split]]]].
  - rewrite (rotate_about_x x y z a). cbv beta iota.
    rewrite !rotate_about_x, cos_plus, sin_plus.
    apply injective_projections; [apply injective_projections|]; simpl; ring.
  - rewrite (rotate_about_y x y z a). cbv beta iota.
    rewrite !rotate_about_y, cos_plus, sin_plus.
    apply injective_projections; [apply injective_projections|]; simpl; ring.
  - rewrite (rotate_about_z x y z a). cbv beta iota.
    rewrite !rotate_about_z, cos_plus, sin_plus.
    apply injective_projections; [apply injective_projections|]; simpl; ring.
  - rewrite !rotate_point_eq, Hc, Hs. reflexivity.
  - rewrite !rotate_point_eq, Hc, Hs. reflexivity.
  - rewrite !rotate_point_eq, Hc, Hs. reflexivity.
Qed.
End RotationMore.

(** * More about the projection *)











(** * More about the frame compositor *)

(** The call of [bresenham] the compositor makes for an edge. *)
Definition edge_line (fuel : nat) (uc : bool) (rotated : list vertex)
    (projected : list (Z * Z)) (e : nat * nat) : outcome (list point) :=
  if uc then colored_line fuel rotated projected e
  else plain_line fuel projected e.

(** Some edge of [es] has a line through the cell [p]. *)
Definition on_some_edge (fuel : nat) (uc : bool) (rotated : list vertex)
    (projected : list (Z * Z)) (es : list (nat * nat)) (p : Z * Z) : Prop :=
  exists e pts,
    e ∈ es /\ edge_line fuel uc rotated projected e = Returns pts /\
    p ∈ (fst <$> pts).

Lemma put_plain_cells c pts : forall s s' x y,
  for_each (put_plain c) pts s = Returns s' ->
  (x, y) ∈ s' <->
  (x, y) ∈ s \/ (in_bounds c x y = true /\ (x, y) ∈ (fst <$> pts)).
Proof.
  induction pts as [|pt rest IH]; intros s s' x y H; simpl in H.
  - inversion H; subst. rewrite fmap_nil, elem_of_nil. tauto.
  - destruct (put_plain c s pt) as [s1| |] eqn:Hput; simpl in H;
      try discriminate.
    rewrite (IH _ _ x y H), fmap_cons, elem_of_cons.
    destruct pt as [[px py] [col|]]; simpl in Hput; [discriminate|]. simpl.
    destruct (in_bounds c px py) eqn:Hb; inversion Hput; subst; clear Hput.
    + rewrite elem_of_union, elem_of_singleton. split.
      * intros [[Heq | Hs] | [Hx Hr]]; auto.
        inversion Heq; subst. auto.
      * intros [Hs | [Hx [Heq | Hr]]]; auto.
    + split.
      * intros [Hs | [Hx Hr]]; auto.
      * intros [Hs | [Hx [Heq | Hr]]]; auto.
        inversion Heq; subst. congruence.
Qed.

Lemma put_colored_cells c pts : forall m m' x y,
  for_each (put_colored c) pts m = Returns m' ->
  is_Some (m' !! (x, y)) <->
  is_Some (m !! (x, y)) \/ (in_bounds c x y = true /\ (x, y) ∈ (fst <$> pts)).
Proof.
  induction pts as [|pt rest IH]; intros m m' x y H; simpl in H.
  - inversion H; subst. rewrite fmap_nil, elem_of_nil. tauto.
  - destruct (put_colored c m pt) as [m1| |] eqn:Hput; simpl in H;
      try discriminate.
    rewrite (IH _ _ x y H), fmap_cons, elem_of_cons.
    destruct pt as [[px py] [col|]]; simpl in Hput; [|discriminate]. simpl.
    destruct (in_bounds c px py) eqn:Hb; inversion Hput; subst; clear Hput.
    + rewrite lookup_insert_is_Some. split.
      * intros [[Heq | [Hne Hs]] | [Hx Hr]]; auto.
        inversion Heq; subst. auto.
      * intros [Hs | [Hx [Heq | Hr]]]; auto.
        destruct (decide ((px, py) = (x, y))); auto.
    + split.
      * intros [Hs | [Hx Hr]]; auto.
      * intros [Hs | [Hx [Heq | Hr]]]; auto.
        inversion Heq; subst. congruence.
Qed.

Lemma plain_edges_cells fuel c rotated projected es : forall s s' x y,
  for_each (add_plain_edge fuel c projected) es s = Returns s' ->
  (x, y) ∈ s' <->
  (x, y) ∈ s \/
  (in_bounds c x y = true /\ on_some_edge fuel false rotated projected es (x, y)).
Proof.
  unfold on_some_edge, edge_line.
  induction es as [|e es IH]; intros s s' x y H; simpl in H.
  - inversion H; subst. split; [auto|].
    intros [Hs | [_ (e & pts & He & _)]]; [exact Hs|].
    apply elem_of_nil in He. destruct He.
  - destruct (add_plain_edge fuel c projected s e) as [s1| |] eqn:H1;
      simpl in H; try discriminate.
    rewrite (IH _ _ x y H). unfold add_plain_edge in H1.
    destruct (plain_line fuel projected e) as [pts| |] eqn:Hl; simpl in H1;
      try discriminate.
    rewrite (put_plain_cells _ _ _ _ x y H1). split.
    + intros [[Hs | [Hb Hin]] | [Hb (e' & pts' & He' & Hl' & Hin)]]; auto.
      * right. split; [exact Hb|]. exists e, pts. rewrite elem_of_cons. auto.
      * right. split; [exact Hb|]. exists e', pts'. rewrite elem_of_cons. auto.
    + intros [Hs | [Hb (e' & pts' & He' & Hl' & Hin)]]; auto.
      apply elem_of_cons in He' as [-> | He'].
      * rewrite Hl in Hl'. inversion Hl'; subst. auto.
      * right. split; [exact Hb|]. exists e', pts'. auto.
Qed.

Lemma colored_edges_cells fuel c rotated projected es : forall m m' x y,
  for_each (add_colored_edge fuel c rotated projected) es m = Returns m' ->
  is_Some (m' !! (x, y)) <->
  is_Some (m !! (x, y)) \/
  (in_bounds c x y = true /\ on_some_edge fuel true rotated projected es (x, y)).
Proof.
  unfold on_some_edge, edge_line.
  induction es as [|e es IH]; intros m m' x y H; simpl in H.
  - inversion H; subst. split; [auto|].
    intros [Hs | [_ (e & pts & He & _)]]; [exact Hs|].
    apply elem_of_nil in He. destruct He.
  - destruct (add_colored_edge fuel c rotated projected m e) as [m1| |] eqn:H1;
      simpl in H; try discriminate.
    rewrite (IH _ _ x y H). unfold add_colored_edge in H1.
    destruct (colored_line fuel rotated projected e) as [pts| |] eqn:Hl;
      simpl in H1; try discriminate.
    rewrite (put_colored_cells _ _ _ _ x y H1). split.
    + intros [[Hs | [Hb Hin]] | [Hb (e' & pts' & He' & Hl' & Hin)]]; auto.
      * right. split; [exact Hb|]. exists e, pts. rewrite elem_of_cons. auto.
      * right. split; [exact Hb|]. exists e', pts'. rewrite elem_of_cons. auto.
    + intros [Hs | [Hb (e' & pts' & He' & Hl' & Hin)]]; auto.
      apply elem_of_cons in He' as [-> | He'].
      * rewrite Hl in Hl'. inversion Hl'; subst. auto.
      * right. split; [exact Hb|]. exists e', pts'. auto.
Qed.

(** The cells of a frame: those of the canvas that lie on the line of some
    edge. *)
Lemma collect_cells fuel c uc rotated projected es fp x y :
  collect fuel c uc rotated projected es = Returns fp ->
  recorded fp (x, y) <->
  in_bounds c x y = true /\ on_some_edge fuel uc rotated projected es (x, y).
Proof.
  unfold collect. destruct uc.
  - destruct (for_each _ es ∅) as [m| |] eqn:Hm; simpl; try discriminate.
    intros H; inversion H; subst; clear H. simpl.
    rewrite (colored_edges_cells _ _ _ _ _ _ _ x y Hm), lookup_empty.
    split; [intros [[? Hs] | Hr]; [discriminate | exact Hr] | auto].
  - destruct (for_each _ es ∅) as [s| |] eqn:Hm; simpl; try discriminate.
    intros H; inversion H; subst; clear H. simpl.
    rewrite (plain_edges_cells _ _ rotated _ _ _ _ x y Hm).
    split; [intros [Hs | Hr]; [|exact Hr] | auto].
    apply elem_of_empty in Hs. destruct Hs.
Qed.

(** X10.  The frame is exactly the part of the wireframe that lies on the
    canvas: with valid edges the compositor returns, and a cell is recorded
    if and only if it is a cell of the canvas on the rasterized line of
    some edge. *)
Theorem collect_exact c uc rotated projected es fuel :
  edges_valid (length projected) es ->
  colors_present uc rotated projected ->
  (frame_fuel projected <= fuel)%nat ->
  exists fp,
    collect fuel c uc rotated projected es = Returns fp /\
    forall x y,
      recorded fp (x, y) <->
      in_bounds c x y = true /\ on_some_edge fuel uc rotated projected es (x, y).
Proof.
  intros Hes Hcol Hf.
  destruct (collect_returns c uc rotated projected es fuel Hes Hcol Hf)
    as (fp & Hfp).
  exists fp. split; [exact Hfp|].
  intros x y. apply (collect_cells _ _ _ _ _ _ _ _ _ Hfp).
Qed.

Lemma collect_exact_witness :
  exists fp,
    collect 25 small_canvas false [] [(-3, 1); (12, 3)] [(0, 1)%nat] = Returns fp /\
    forall x y,
      recorded fp (x, y) <->
      in_bounds small_canvas x y = true /\
      on_some_edge 25 false [] [(-3, 1); (12, 3)] [(0, 1)%nat] (x, y).
Proof.
  apply (collect_exact small_canvas false [] [(-3, 1); (12, 3)] [(0, 1)%nat] 25).
  - unfold edges_valid. simpl. repeat constructor.
  - intros H. discriminate H.
  - vm_compute. lia.
Defined.

Lemma on_some_edge_Permutation fuel uc rotated projected es es' p :
  es ≡ₚ es' ->
  on_some_edge fuel uc rotated projected es p ->
  on_some_edge fuel uc rotated projected es' p.
Proof.
  intros HP (e & pts & He & Hl & Hin). exists e, pts.
  rewrite <- HP. auto.
Qed.

(** X11.  The order of the edge list does not change which cells are drawn:
    two frames built from the same edges in a different order record the
    same cells, and without colors they are the same set. *)
Theorem collect_edge_order c uc rotated projected es es' fuel :
  es ≡ₚ es' ->
  edges_valid (length projected) es ->
  colors_present uc rotated projected ->
  (frame_fuel projected <= fuel)%nat ->
  exists fp fp',
    collect fuel c uc rotated projected es = Returns fp /\
    collect fuel c uc rotated projected es' = Returns fp' /\
    (forall p, recorded fp p <-> recorded fp' p) /\
    (uc = false -> fp = fp').
Proof.
  intros HP Hes Hcol Hf.
  assert (Hes' : edges_valid (length projected) es').
  { unfold edges_valid in *. rewrite <- HP. exact Hes. }
  destruct (collect_returns c uc rotated projected es fuel Hes Hcol Hf)
    as (fp & Hfp).
  destruct (collect_returns c uc rotated projected es' fuel Hes' Hcol Hf)
    as (fp' & Hfp').
  exists fp, fp'. split; [exact Hfp|]. split; [exact Hfp'|].
  assert (Hsame : forall p, recorded fp p <-> recorded fp' p).
  { intros [x y].
    rewrite (collect_cells _ _ _ _ _ _ _ x y Hfp).
    rewrite (collect_cells _ _ _ _ _ _ _ x y Hfp').
    split; intros [Hb Hon]; (split; [exact Hb|]).
    - exact (on_some_edge_Permutation _ _ _ _ _ _ _ HP Hon).
    - symmetry in HP. exact (on_some_edge_Permutation _ _ _ _ _ _ _ HP Hon). }
  split; [exact Hsame|].
  intros ->. unfold collect in Hfp, Hfp'.
  destruct (for_each _ es ∅) as [s| |]; simpl in Hfp; try discriminate.
  destruct (for_each _ es' ∅) as [s'| |]; simpl in Hfp'; try discriminate.
  inversion Hfp; inversion Hfp'; subst. f_equal.
  apply set_eq. exact Hsame.
Qed.

Lemma collect_edge_order_witness :
  exists fp fp',
    collect 9 small_canvas false [] crossing_projected [(0, 1); (2, 3)]%nat
      = Returns fp /\
    collect 9 small_canvas false [] crossing_projected [(2, 3); (0, 1)]%nat
      = Returns fp' /\
    (forall p, recorded fp p <-> recorded fp' p) /\
    (false = false -> fp = fp').
Proof.
  apply (collect_edge_order small_canvas false [] crossing_projected
           [(0, 1); (2, 3)]%nat [(2, 3); (0, 1)]%nat 9).
  - apply perm_swap.
  - unfold edges_valid. simpl. repeat constructor.
  - intros H. discriminate H.
  - vm_compute. lia.
Defined.

Lemma index_ge {A} (l : list A) (i : nat) :
  (length l <= i)%nat -> index l i = Raises IndexError.
Proof.
  intros H. unfold index. rewrite (lookup_ge_None_2 l i H). reflexivity.
Qed.

(** An edge with an index past the vertex list raises [IndexError]. *)
Lemma edge_line_bad_index fuel uc rotated projected e :
  length rotated = length projected ->
  ~ ((fst e < length projected)%nat /\ (snd e < length projected)%nat) ->
  edge_line fuel uc rotated projected e = Raises IndexError.
Proof.
  destruct e as [i j]; simpl. intros Hlen Hbad.
  unfold edge_line, colored_line, plain_line.
  destruct (Nat.lt_ge_cases i (length projected)) as [Hi | Hi].
  - assert (Hj : (length projected <= j)%nat) by lia.
    destruct (index_lt projected i Hi) as (p & _ & ->).
    destruct (index_lt rotated i ltac:(lia)) as (v & _ & ->).
    rewrite (index_ge projected j Hj), (index_ge rotated j ltac:(lia)).
    destruct uc; reflexivity.
  - rewrite (index_ge projected i Hi), (index_ge rotated i ltac:(lia)).
    destruct uc; reflexivity.
Qed.

(** X12.  The first edge that names a vertex past the end of the vertex
    list stops the frame with an [IndexError], whatever edges follow it;
    nothing is recorded. *)
Theorem collect_bad_edge c uc rotated projected es1 e es2 fuel :
  edges_valid (length projected) es1 ->
  length rotated = length projected ->
  colors_present uc rotated projected ->
  (frame_fuel projected <= fuel)%nat ->
  ~ ((fst e < length projected)%nat /\ (snd e < length projected)%nat) ->
  collect fuel c uc rotated projected (es1 ++ e :: es2) = Raises IndexError.
Proof.
  intros Hes Hlen Hcol Hf Hbad.
  pose proof (edge_line_bad_index fuel uc rotated projected e Hlen Hbad) as He.
  destruct (collect_returns c uc rotated projected es1 fuel Hes Hcol Hf)
    as (fp & Hfp).
  unfold collect in *. unfold edge_line in He. destruct uc.
  - rewrite for_each_app.
    destruct (for_each _ es1 ∅) as [m| |]; simpl in Hfp; try discriminate.
    simpl. unfold add_colored_edge at 1. rewrite He. reflexivity.
  - rewrite for_each_app.
    destruct (for_each _ es1 ∅) as [s| |]; simpl in Hfp; try discriminate.
    simpl. unfold add_plain_edge at 1. rewrite He. reflexivity.
Qed.

Lemma collect_bad_edge_witness :
  collect 9 small_canvas false [((0, 0, 0)%Q, None); ((1, 0, 0)%Q, None)]
    [(0, 2); (4, 2)] ([(0, 1)%nat] ++ (1, 2)%nat :: [])
  = Raises IndexError.
Proof.
  apply (collect_bad_edge small_canvas false
           [((0, 0, 0)%Q, None); ((1, 0, 0)%Q, None)] [(0, 2); (4, 2)]
           [(0, 1)%nat] (1, 2)%nat [] 9).
  - unfold edges_valid. simpl. repeat constructor.
  - reflexivity.
  - intros H. discriminate H.
  - vm_compute. lia.
  - simpl. lia.
Defined.

(** * The presenter *)

Lemma string_app_nil_r (s : string) : s +:+ "" = s.
Proof.
  induction s as [|a s IH]; [reflexivity|].
  change (String a (s +:+ "") = String a s). f_equal. exact IH.
Qed.

Lemma string_length_app (s t : string) :
  String.length (s +:+ t) = (String.length s + String.length t)%nat.
Proof.
  induction s as [|a s IH]; [reflexivity|].
  change (S (String.length (s +:+ t)) = S (String.length s + String.length t)).
  f_equal. exact IH.
Qed.

Lemma concat_cons (s : string) (l : list string) :
  String.concat "" (s :: l) = s +:+ String.concat "" l.
Proof.
  destruct l as [|t l].
  - change (s = s +:+ ""). rewrite string_app_nil_r. reflexivity.
  - reflexivity.
Qed.

(** Strings of one length, written one after the other. *)
Lemma blocks_length (n : nat) (l : list string) :
  Forall (fun b => String.length b = n) l ->
  String.length (String.concat "" l) = (length l * n)%nat.
Proof.
  induction 1 as [|b l Hb _ IH]; [reflexivity|].
  rewrite concat_cons, string_length_app, Hb, IH. simpl. reflexivity.
Qed.

Lemma blocks_get (n : nat) (l : list string) : forall (i j : nat) b,
  Forall (fun b => String.length b = n) l ->
  l !! i = Some b -> (j < n)%nat ->
  String.get (i * n + j) (String.concat "" l) = String.get j b.
Proof.
  induction l as [|b0 l IH]; intros i j b HF Hi Hj; [discriminate|].
  apply Forall_cons in HF as [Hb0 HF]. rewrite concat_cons.
  destruct i as [|i]; simpl in Hi.
  - inversion Hi; subst b0. simpl.
    symmetry. apply append_correct1. lia.
  - replace (S i * n + j)%nat with ((i * n + j) + String.length b0)%nat
      by (rewrite Hb0; simpl; lia).
    rewrite <- append_correct2. apply IH; assumption.
Qed.

Section Presenter.
Variable c : props.
Variable s : gset (Z * Z).
Variable ch : ascii.
Hypothesis one_char : LINE_CHAR c = String ch EmptyString.

Local Abbreviation W := (Z.to_nat (WIDTH c)).
Local Abbreviation H := (Z.to_nat (HEIGHT c)).

(** The characters one row writes, before its newline. *)
Definition row_cells (y : Z) : list string :=
  (fun x => cell c (PlainPoints s) x y) <$> seqZ 0 (WIDTH c).

Lemma cell_plain x y :
  cell c (PlainPoints s) x y
  = String (if decide ((x, y) ∈ s) then ch else " "%char) EmptyString.
Proof. simpl. rewrite one_char. destruct (decide ((x, y) ∈ s)); reflexivity. Qed.

Lemma row_cells_one y :
  Forall (fun b => String.length b = 1%nat) (row_cells y).
Proof.
  unfold row_cells. rewrite Forall_fmap. apply Forall_forall. intros x _.
  unfold compose. rewrite cell_plain. reflexivity.
Qed.

Lemma row_cells_length y : length (row_cells y) = W.
Proof. unfold row_cells. rewrite length_fmap, length_seqZ. reflexivity. Qed.

Definition rows : list string :=
  (fun y => String.concat "" (row_cells y) +:+ newline) <$> seqZ 0 (HEIGHT c).

Lemma draw_rows : draw c (PlainPoints s) = String.concat "" rows.
Proof. reflexivity. Qed.

Lemma rows_width : Forall (fun b => String.length b = (W + 1)%nat) rows.
Proof.
  unfold rows. rewrite Forall_fmap. apply Forall_forall. intros y _. unfold compose.
  rewrite string_length_app, (blocks_length 1 _ (row_cells_one y)),
    row_cells_length.
  simpl. lia.
Qed.

Lemma rows_lookup (y : nat) :
  Z.of_nat y < HEIGHT c ->
  rows !! y = Some (String.concat "" (row_cells (Z.of_nat y)) +:+ newline).
Proof.
  intros Hy. unfold rows. rewrite list_lookup_fmap, lookup_seqZ_lt by exact Hy.
  reflexivity.
Qed.

(** X13.  Without colors, and with a fill character of length one, the
    text of a frame is [HEIGHT] rows of [WIDTH] characters, each followed
    by a newline; the character for column [x] of row [y] is the fill
    character when the cell is recorded and a space when it is not. *)
Theorem draw_plain (x y : nat) :
  Z.of_nat x < WIDTH c -> Z.of_nat y < HEIGHT c ->
  String.length (draw c (PlainPoints s)) = (H * (W + 1))%nat /\
  String.get (y * (W + 1) + x) (draw c (PlainPoints s))
  = Some (if decide ((Z.of_nat x, Z.of_nat y) ∈ s) then ch else " "%char) /\
  String.get (y * (W + 1) + W) (draw c (PlainPoints s))
  = Some (ascii_of_nat 10).
Proof.
  intros Hx Hy. rewrite draw_rows. split; [|split].
  - rewrite (blocks_length _ _ rows_width). unfold rows.
    rewrite length_fmap, length_seqZ. reflexivity.
  - rewrite (blocks_get _ _ _ _ _ rows_width (rows_lookup y Hy)) by lia.
    rewrite <- append_correct1
      by (rewrite (blocks_length 1 _ (row_cells_one _)), row_cells_length; lia).
    replace x with (x * 1 + 0)%nat at 1 by lia.
    rewrite (blocks_get 1 (row_cells (Z.of_nat y)) x 0
               (cell c (PlainPoints s) (Z.of_nat x) (Z.of_nat y))
               (row_cells_one _)).
    + rewrite cell_plain. reflexivity.
    + unfold row_cells. rewrite list_lookup_fmap, lookup_seqZ_lt by exact Hx.
      reflexivity.
    + lia.
  - rewrite (blocks_get _ _ _ _ _ rows_width (rows_lookup y Hy)) by lia.
    pose proof (append_correct2 (String.concat "" (row_cells (Z.of_nat y)))
                  newline 0) as Hn.
    rewrite (blocks_length 1 _ (row_cells_one _)), row_cells_length in Hn.
    rewrite Nat.mul_1_r, Nat.add_0_l in Hn. rewrite <- Hn. reflexivity.
Qed.
End Presenter.

Lemma draw_plain_witness :
  String.length (draw small_canvas (PlainPoints {[(1, 0)]}))
  = (Z.to_nat (HEIGHT small_canvas) * (Z.to_nat (WIDTH small_canvas) + 1))%nat /\
  String.get (0 * (Z.to_nat (WIDTH small_canvas) + 1) + 1)
    (draw small_canvas (PlainPoints {[(1, 0)]}))
  = Some (if decide ((Z.of_nat 1, Z.of_nat 0) ∈ ({[(1, 0)]} : gset (Z * Z)))
          then "#"%char else " "%char) /\
  String.get (0 * (Z.to_nat (WIDTH small_canvas) + 1)
              + Z.to_nat (WIDTH small_canvas))
    (draw small_canvas (PlainPoints {[(1, 0)]}))
  = Some (ascii_of_nat 10).
Proof.
  apply (draw_plain small_canvas {[(1, 0)]} "#"%char); [reflexivity | | ];
    vm_compute; reflexivity.
Defined.

(** * The animation driver *)


(** [map_each] raises what its first failing element raises. *)
Lemma map_each_raises {A B} (f : A -> outcome B) (e : exn) l a :
  Forall (fun a => (exists b, f a = Returns b) \/ f a = Raises e) l ->
  a ∈ l -> f a = Raises e ->
  map_each f l = Raises e.
Proof.
  intros HF Hin Ha. induction HF as [|a0 l H0 _ IH]; simpl.
  - apply elem_of_nil in Hin. destruct Hin.
  - destruct H0 as [[b Hb] | Hr].
    + rewrite Hb. simpl. apply elem_of_cons in Hin as [-> | Hin].
      * congruence.
      * rewrite (IH Hin). reflexivity.
    + rewrite Hr. reflexivity.
Qed.

Lemma run_stuck cos sin fuel prog n :
  run cos sin fuel prog n Unfinished = ([], Unfinished).
Proof. induction n as [|n IH]; simpl; [|rewrite IH]; reflexivity. Qed.

(** Running [n + m] iterations is running [n] and then [m]. *)
Lemma run_split cos sin fuel prog n m : forall d,
  run cos sin fuel prog (n + m) d
  = let '(outs1, d1) := run cos sin fuel prog n d in
    let '(outs2, d2) := run cos sin fuel prog m d1 in
    (outs1 ++ outs2, d2).
Proof.
  induction n as [|n IH]; intros d.
  - simpl. destruct (run cos sin fuel prog m d). reflexivity.
  - cbn [Nat.add run]. destruct (iteration cos sin fuel prog d) as [out d'].
    rewrite IH. destruct (run cos sin fuel prog n d') as [outs1 d1].
    destruct (run cos sin fuel prog m d1) as [outs2 d2].
    destruct out; reflexivity.
Qed.

Lemma run_length cos sin fuel prog n : forall d outs d',
  run cos sin fuel prog n d = (outs, d') -> (length outs <= n)%nat.
Proof.
  induction n as [|n IH]; intros d outs d' H; simpl in H.
  - inversion H. simpl. lia.
  - destruct (iteration cos sin fuel prog d) as [out d1].
    destruct (run cos sin fuel prog n d1) as [outs1 d2] eqn:Hr.
    apply IH in Hr. inversion H; subst. destruct out; simpl; lia.
Qed.

(** X14.  An exception ends the animation for good: once the driver has
    left the loop it writes no further frame, and fewer frames were written
    than iterations were started. *)
Theorem run_fault_final cos sin fuel prog n outs e :
  run cos sin fuel prog n start = (outs, Terminated e) ->
  (length outs < n)%nat /\
  forall m, run cos sin fuel prog (n + m) start = (outs, Terminated e).
Proof.
  intros H. split.
  - unfold start in H. revert outs H.
    generalize ({| angle_x := 0; angle_y := 0; angle_z := 0 |}).
    induction n as [|n IH]; intros a outs H; [discriminate|].
    cbn [run iteration] in H.
    destruct (frame cos sin fuel prog a) as [out| e' |].
    + destruct (run cos sin fuel prog n (Running (update_angles prog a)))
        as [outs1 d] eqn:Hr.
      inversion H; subst. apply IH in Hr. simpl. lia.
    + destruct (run cos sin fuel prog n (Terminated e')) as [outs1 d] eqn:Hr.
      apply run_length in Hr. inversion H; subst. lia.
    + rewrite run_stuck in H. discriminate.
  - intros m. rewrite run_split, H, run_terminated, app_nil_r. reflexivity.
Qed.

Definition bad_edge_script : script :=
  {| constants := small_canvas;
     vertices := [((0, 0, 0)%Q, None)];
     edges := [(0, 1)%nat] |}.

Lemma run_fault_final_witness :
  (length ([] : list string) < 2)%nat /\
  forall m,
    run cos_at_rest sin_at_rest 5 bad_edge_script (2 + m) start
    = ([], Terminated IndexError).
Proof.
  apply (run_fault_final cos_at_rest sin_at_rest 5 bad_edge_script 2 []
           IndexError).
  vm_compute. reflexivity.
Defined.






(** ** Frames without edges, and frames that fail *)




(** The vertex list has one shape: every vertex carries a color, or none
    does. *)
Definition uniform (vs : list vertex) : Prop :=
  Forall (fun v : vertex => is_Some (snd v)) vs \/
  Forall (fun v : vertex => snd v = None) vs.










(** X18.  A vertex list whose first vertex has no color and in which a
    later vertex has one stops the driver in its first frame: the colored
    tuple is splatted into [rotate_point], which raises [TypeError]. *)
Theorem frame_mixed_vertices cos sin fuel prog a v0 vs v :
  vertices prog = v0 :: vs ->
  snd v0 = None ->
  v ∈ vs -> is_Some (snd v) ->
  frame cos sin fuel prog a = Raises TypeError.
Proof.
  intros Hvs H0 Hin [col Hc]. unfold frame. rewrite Hvs.
  assert (Huc : use_colors (v0 :: vs) = false) by (simpl; rewrite H0; reflexivity).
  rewrite Huc.
  rewrite (map_each_raises (rotate_vertex cos sin false a) TypeError (v0 :: vs) v).
  - reflexivity.
  - apply Forall_forall. intros [[[x y] z] [c0|]] _; simpl; eauto.
  - apply elem_of_cons. auto.
  - destruct v as [[[x y] z] rest]. simpl in Hc. subst rest. reflexivity.
Qed.

Definition mixed : script :=
  {| constants := small_canvas;
     vertices := [((1, 0, 0)%Q, None); ((0, 1, 0)%Q, Some blue)];
     edges := [(0, 1)%nat] |}.

Lemma frame_mixed_vertices_witness :
  frame cos_at_rest sin_at_rest 9 mixed
    {| angle_x := 0; angle_y := 0; angle_z := 0 |}
  = Raises TypeError.
Proof.
  apply (frame_mixed_vertices cos_at_rest sin_at_rest 9 mixed
           {| angle_x := 0; angle_y := 0; angle_z := 0 |}
           ((1, 0, 0)%Q, None) [((0, 1, 0)%Q, Some blue)]
           ((0, 1, 0)%Q, Some blue)).
  - reflexivity.
  - reflexivity.
  - apply elem_of_cons. left. reflexivity.
  - eexists. reflexivity.
Defined.

(** ** More about the exporter *)

(** What [map_each] returns, element by element. *)
Lemma map_each_Forall2 {A B} (f : A -> outcome B) l bs :
  map_each f l = Returns bs -> Forall2 (fun a b => f a = Returns b) l bs.
Proof.
  revert bs; induction l as [|a l IH]; intros bs H; simpl in H.
  - inversion H. constructor.
  - destruct (f a) as [b| |] eqn:Ha; simpl in H; try discriminate.
    destruct (map_each f l) as [bs'| |]; simpl in H; try discriminate.
    inversion H; subst. constructor; [exact Ha | apply IH; reflexivity].
Qed.

(** The mean of the mesh vertices. *)
Definition centroid (vs : list (Q * Q * Q)) : Q * Q * Q :=
  vec_div (foldl vec_add (0, 0, 0)%Q vs) (inject_Z (Z.of_nat (length vs))).

Definition scale_of (max_dist : Q) : Q :=
  if Qlt_le_dec 0 max_dist then (1 / max_dist)%Q else 1%Q.

(** The 8-bit color the exporter embeds for an RGBA value. *)
Definition to_8bit (col : Q * Q * Q * Q) : color :=
  let '(cr, cg, cb, _) := col in
  (py_int (cr * 255)%Q, py_int (cg * 255)%Q, py_int (cb * 255)%Q).

Section ExporterFacts.
Variable vec_length : Q * Q * Q -> Q.

Definition distances (vs : list (Q * Q * Q)) : list Q :=
  (fun v => vec_length (vec_sub v (centroid vs))) <$> vs.

(** Each exported vertex, by position in the list. *)
Lemma export_vertices_lookup m ic l :
  export_vertices vec_length m ic = Returns l ->
  exists d,
    py_max (distances (mesh_vertices m)) = Returns d /\
    forall (i : nat) e, l !! i = Some e ->
      exists v, mesh_vertices m !! i = Some v /\
        fst e = vec_mul (vec_sub v (centroid (mesh_vertices m))) (scale_of d) /\
        match ic with
        | None => snd e = None
        | Some color_attr =>
            exists col, data color_attr !! i = Some col /\ snd e = Some (to_8bit col)
        end.
Proof.
  unfold export_vertices.
  destruct (Z.of_nat (length (mesh_vertices m)) =? 0); simpl; [discriminate|].
  fold (centroid (mesh_vertices m)).
  change (py_max _) with (py_max (distances (mesh_vertices m))).
  destruct (py_max (distances (mesh_vertices m))) as [d| |]; simpl; try discriminate.
  fold (scale_of d). intros H. exists d. split; [reflexivity|].
  intros i e Hi. destruct ic as [color_attr|].
  - apply map_each_Forall2 in H.
    destruct (Forall2_lookup_r _ _ _ _ _ H Hi) as ([i' v] & Hiv & He).
    rewrite list_lookup_imap in Hiv.
    destruct (mesh_vertices m !! i) as [v'|] eqn:Hv; simpl in Hiv; [|discriminate].
    inversion Hiv; subst i' v'. exists v. split; [reflexivity|].
    simpl in He. unfold index in He.
    destruct (data color_attr !! i) as [[[[cr cg] cb] ca]|] eqn:Hc; simpl in He;
      [|discriminate].
    inversion He; subst e. simpl. split; [reflexivity|].
    eexists. split; reflexivity.
  - inversion H; subst l. rewrite list_lookup_fmap in Hi.
    destruct (mesh_vertices m !! i) as [v|] eqn:Hv; simpl in Hi; [|discriminate].
    inversion Hi; subst e. exists v. simpl. auto.
Qed.

(** The exporter's choice between the two vertex shapes. *)
Definition include_colors (m : mesh) (p : props) : option color_attribute :=
  match active_color m with
  | Some color_attr =>
      if use_vertex_colors p then
        match domain color_attr with
        | POINT => Some color_attr
        | CORNER => None
        end
      else None
  | None => None
  end.

Lemma execute_mesh filepath m p :
  mesh_vertices m <> [] ->
  execute vec_length filepath (MeshObject m) p
  = let* vs := export_vertices vec_length m (include_colors m p) in
    Returns {| reports :=
                 match include_colors m p with
                 | None =>
                     if use_vertex_colors p then
                       [(WARNING, "Vertex colors not available or not per-vertex. Proceeding without colors.")]
                     else []
                 | Some _ => []
                 end
                 ++ [(INFO, "Rotating ASCII script saved to " +:+ filepath)];
               returned := FINISHED;
               written := Some {| constants := p; vertices := vs;
                                  edges := mesh_edges m |} |}.
Proof.
  intros Hne. unfold execute.
  destruct (mesh_vertices m) as [|v vs] eqn:Hvs; [congruence|].
  reflexivity.
Qed.



End ExporterFacts.

(** What a finished export wrote. *)
Lemma execute_written vec_length filepath m p r prog :
  execute vec_length filepath (MeshObject m) p = Returns r ->
  written r = Some prog ->
  mesh_vertices m <> [] /\
  export_vertices vec_length m (include_colors m p) = Returns (vertices prog) /\
  constants prog = p /\ edges prog = mesh_edges m /\ returned r = FINISHED.
Proof.
  intros H Hw.
  destruct (mesh_vertices m) as [|v0 vs0] eqn:Hvs.
  { unfold execute in H. rewrite Hvs in H. simpl in H.
    inversion H; subst r. discriminate. }
  assert (Hne : mesh_vertices m <> []) by (rewrite Hvs; discriminate).
  rewrite (execute_mesh vec_length filepath m p Hne) in H.
  destruct (export_vertices vec_length m (include_colors m p)) as [l| |];
    simpl in H; try discriminate.
  inversion H; subst r. simpl in Hw. inversion Hw; subst prog. simpl.
  rewrite <- Hvs. auto.
Qed.

(** The exported vertices all have the shape the exporter chose. *)
Lemma export_vertices_shape vec_length m ic l :
  export_vertices vec_length m ic = Returns l ->
  mesh_vertices m <> [] ->
  uniform l /\
  use_colors l = match ic with Some _ => true | None => false end.
Proof.
  intros H Hne.
  pose proof (export_vertices_length _ _ _ _ H) as Hlen.
  destruct (export_vertices_lookup _ _ _ _ H) as (d & _ & Hl).
  assert (Hall : Forall (fun e : vertex =>
            match ic with
            | Some _ => is_Some (snd e)
            | None => snd e = None
            end) l).
  { apply Forall_lookup. intros i e Hi.
    destruct (Hl i e Hi) as (v & _ & _ & Hc).
    destruct ic as [ca|]; [|exact Hc].
    destruct Hc as (col & _ & ->). eauto. }
  split.
  - destruct ic; [left | right]; exact Hall.
  - destruct l as [|e l'].
    { destruct (mesh_vertices m); [congruence | discriminate]. }
    inversion Hall as [|? ? He _]; subst. simpl.
    destruct ic; [destruct He as [c0 ->]; reflexivity | rewrite He; reflexivity].
Qed.



(** The Manhattan length, a stand-in for [Vector.length] on rationals. *)
Definition manhattan (v : Q * Q * Q) : Q :=
  let '(x, y, z) := v in (Qabs x + Qabs y + Qabs z)%Q.

(** A segment with a red and a blue end. *)
Definition painted_segment : mesh :=
  {| mesh_vertices := [(0, 0, 0)%Q; (4, 0, 0)%Q];
     mesh_edges := [(0, 1)%nat];
     active_color :=
       Some {| domain := POINT;
               data := [(1, 0, 0, 1)%Q; (0, 0, 1 # 2, 1)%Q] |} |}.

Definition colored_props : props :=
  {| width := 80; height := 24; scale_x := 20; scale_y := 10; dist := 4;
     line_char := "#"; pause := 1 # 20;
     rot_speed_x := 3 # 100; rot_speed_y := 2 # 100; rot_speed_z := 1 # 100;
     use_vertex_colors := true |}.



(** X20.  What the exporter reports goes with what it returns.  A cancelled
    export wrote nothing and reported one error.  A finished export wrote a
    script, reported no error, ended its reports with the path of the
    script, and warned exactly when colors were asked for and the script it
    wrote has none. *)
Theorem execute_reports vec_length filepath obj p r :
  execute vec_length filepath obj p = Returns r ->
  match returned r with
  | CANCELLED => written r = None /\ exists msg, reports r = [(ERROR, msg)]
  | FINISHED =>
      exists prog,
        written r = Some prog /\
        last (reports r) = Some (INFO, "Rotating ASCII script saved to " +:+ filepath) /\
        (forall msg, (ERROR, msg) ∉ reports r) /\
        ((exists msg, (WARNING, msg) ∈ reports r) <->
         use_vertex_colors p = true /\ use_colors (vertices prog) = false)
  end.
Proof.
  intros H.
  destruct obj as [| |m].
  - inversion H; subst r. simpl. eauto.
  - inversion H; subst r. simpl. eauto.
  - destruct (mesh_vertices m) as [|v0 vs0] eqn:Hvs.
    { unfold execute in H. rewrite Hvs in H. simpl in H.
      inversion H; subst r. simpl. eauto. }
    assert (Hne : mesh_vertices m <> []) by (rewrite Hvs; discriminate).
    rewrite (execute_mesh vec_length filepath m p Hne) in H.
    destruct (export_vertices vec_length m (include_colors m p)) as [l| |] eqn:Hl;
      simpl in H; try discriminate.
    destruct (export_vertices_shape _ _ _ _ Hl Hne) as [_ Huc].
    inversion H; subst r; clear H. simpl.
    eexists. split; [reflexivity|]. simpl. rewrite Huc.
    destruct (include_colors m p) as [ca|]; simpl.
    + split; [reflexivity|]. split.
      * intros msg Hin. apply list_elem_of_singleton in Hin. discriminate.
      * split.
        -- intros [msg Hin]. apply list_elem_of_singleton in Hin. discriminate.
        -- intros [_ ?]. discriminate.
    + destruct (use_vertex_colors p); simpl.
      * split; [reflexivity|]. split.
        -- intros msg Hin. apply elem_of_cons in Hin as [Hin|Hin]; [discriminate|].
           apply list_elem_of_singleton in Hin. discriminate.
        -- split; [auto|]. intros _. eexists. apply elem_of_cons. left. reflexivity.
      * split; [reflexivity|]. split.
        -- intros msg Hin. apply list_elem_of_singleton in Hin. discriminate.
        -- split.
           ++ intros [msg Hin]. apply list_elem_of_singleton in Hin. discriminate.
           ++ intros [? _]. discriminate.
Qed.

(** A segment whose colors are stored per face corner. *)
Definition corner_painted : mesh :=
  {| mesh_vertices := [(0, 0, 0)%Q; (4, 0, 0)%Q];
     mesh_edges := [(0, 1)%nat];
     active_color :=
       Some {| domain := CORNER; data := [(1, 0, 0, 1)%Q] |} |}.

Lemma execute_reports_witness :
  exists r,
    execute manhattan "rotating_ascii.py" (MeshObject corner_painted) colored_props
    = Returns r /\
    match returned r with
    | CANCELLED => written r = None /\ exists msg, reports r = [(ERROR, msg)]
    | FINISHED =>
        exists prog,
          written r = Some prog /\
          last (reports r)
          = Some (INFO, "Rotating ASCII script saved to " +:+ "rotating_ascii.py") /\
          (forall msg, (ERROR, msg) ∉ reports r) /\
          ((exists msg, (WARNING, msg) ∈ reports r) <->
           use_vertex_colors colored_props = true /\
           use_colors (vertices prog) = false)
    end.
Proof.
  eexists. split.
  - vm_compute. reflexivity.
  - apply (execute_reports manhattan "rotating_ascii.py" (MeshObject corner_painted)
             colored_props).
    vm_compute. reflexivity.
Defined.

Lemma include_colors_active m p color_attr :
  include_colors m p = Some color_attr -> active_color m = Some color_attr.
Proof.
  unfold include_colors.
  destruct (active_color m) as [ca|]; [|discriminate].
  destruct (use_vertex_colors p); [|discriminate].
  destruct (domain ca); [|discriminate].
  intros H; inversion H; reflexivity.
Qed.

(** An RGBA value with its three color channels in [0, 1]. *)
Definition unit_rgba (col : Q * Q * Q * Q) : Prop :=
  let '(cr, cg, cb, _) := col in
  (0 <= cr <= 1 /\ 0 <= cg <= 1 /\ 0 <= cb <= 1)%Q.

Definition is_8bit (col : color) : Prop :=
  let '(r, g, b) := col in
  0 <= r <= 255 /\ 0 <= g <= 255 /\ 0 <= b <= 255.

Lemma to_8bit_channel q : (0 <= q <= 1)%Q -> 0 <= py_int (q * 255) <= 255.
Proof.
  intros [H0 H1]. apply py_int_bounds. unfold inject_Z. split; lra.
Qed.

(** X21.  When the channels of the color attribute lie in [0, 1], every
    color the exporter embeds in the script has its three channels in
    0..255, the range of an ANSI 24-bit color escape. *)
Theorem execute_colors_8bit vec_length filepath m p r prog :
  execute vec_length filepath (MeshObject m) p = Returns r ->
  written r = Some prog ->
  (forall color_attr,
     active_color m = Some color_attr -> Forall unit_rgba (data color_attr)) ->
  Forall (fun v : vertex => forall col, snd v = Some col -> is_8bit col)
    (vertices prog).
Proof.
  intros H Hw Hunit.
  destruct (execute_written _ _ _ _ _ _ H Hw) as (Hne & Hl & _).
  destruct (export_vertices_lookup _ _ _ _ Hl) as (d & _ & Hlk).
  apply Forall_lookup. intros i e Hi col He.
  destruct (Hlk i e Hi) as (v & _ & _ & Hc).
  destruct (include_colors m p) as [ca|] eqn:Hic; [|congruence].
  destruct Hc as (rgba & Hrgba & Hsnd).
  rewrite Hsnd in He. inversion He; subst col.
  apply include_colors_active in Hic.
  pose proof (Hunit ca Hic) as HF.
  rewrite Forall_lookup in HF. specialize (HF i rgba Hrgba).
  destruct rgba as [[[cr cg] cb] ca']. simpl in HF. destruct HF as (Hr & Hg & Hb).
  simpl. auto using to_8bit_channel.
Qed.

Lemma painted_segment_unit color_attr :
  active_color painted_segment = Some color_attr ->
  Forall unit_rgba (data color_attr).
Proof.
  simpl. intros H; inversion H; subst color_attr. simpl.
  repeat constructor; simpl; lra.
Qed.

Lemma execute_colors_8bit_witness :
  exists r prog,
    execute manhattan "rotating_ascii.py" (MeshObject painted_segment) colored_props
    = Returns r /\
    written r = Some prog /\
    Forall (fun v : vertex => forall col, snd v = Some col -> is_8bit col)
      (vertices prog).
Proof.
  eexists. eexists. split; [vm_compute; reflexivity|].
  split; [reflexivity|].
  eapply (execute_colors_8bit manhattan "rotating_ascii.py" painted_segment
            colored_props).
  - vm_compute. reflexivity.
  - reflexivity.
  - exact painted_segment_unit.
Defined.


Definition cx (v : Q * Q * Q) : Q := fst (fst v).
Definition cy (v : Q * Q * Q) : Q := snd (fst v).














(** ** The pixel cubes *)

Section PixelCubesFacts.
Import PixelCubes.

Lemma pixels_for_each_app {A S} (f : S -> A -> result S) l1 l2 s :
  for_each f (l1 ++ l2) s = bind (for_each f l1 s) (for_each f l2).
Proof.
  revert s; induction l1 as [|a l1 IH]; intros s; simpl; [reflexivity|].
  destruct (f s a); simpl; [apply IH | reflexivity].
Qed.

Lemma pixels_for_each_fmap {A B S} (g : A -> B) (f : S -> B -> result S) l s :
  for_each f (g <$> l) s = for_each (fun s a => f s (g a)) l s.
Proof.
  revert s; induction l as [|a l IH]; intros s; simpl; [reflexivity|].
  destruct (f s (g a)); simpl; [apply IH | reflexivity].
Qed.

(** The pixels in the order of the two nested loops: column by column. *)
Definition scan (w h : Z) : list (Z * Z) :=
  seqZ 0 w ≫= (fun i => pair i <$> seqZ 0 h).

Lemma for_pixels_scan {S} w h (body : S -> Z -> Z -> result S) s :
  for_pixels w h body s = for_each (fun s ij => body s ij.1 ij.2) (scan w h) s.
Proof.
  unfold for_pixels, scan. revert s.
  induction (seqZ 0 w) as [|i l IH]; intros s; [reflexivity|].
  rewrite bind_cons, pixels_for_each_app, pixels_for_each_fmap. simpl.
  destruct (for_each _ (seqZ 0 h) s); simpl; [apply IH | reflexivity].
Qed.

Lemma elem_of_scan w h i j : (i, j) ∈ scan w h <-> 0 <= i < w /\ 0 <= j < h.
Proof.
  unfold scan. rewrite list_elem_of_bind. split.
  - intros (i' & Hin & Hi'). apply list_elem_of_fmap in Hin.
    destruct Hin as (j' & Heq & Hj'). inversion Heq; subst.
    apply elem_of_seqZ in Hi', Hj'. lia.
  - intros [Hi Hj]. exists i. split.
    + apply list_elem_of_fmap. exists j. split; [reflexivity|].
      apply elem_of_seqZ. lia.
    + apply elem_of_seqZ. lia.
Qed.



Lemma unpack4_returns (l : list Q) :
  length l = 4%nat -> exists p, unpack4 l = Returns p.
Proof.
  destruct l as [|r [|g [|b [|a [|? ?]]]]]; simpl; try discriminate.
  intros _. eauto.
Qed.

Lemma unpack4_raises (l : list Q) :
  length l <> 4%nat -> unpack4 l = Raises ValueError.
Proof.
  destruct l as [|r [|g [|b [|a [|? ?]]]]]; simpl; try reflexivity.
  intros H; congruence.
Qed.














(** Key equality is an equivalence. *)
Lemma key_eqb_true (k k' : color_key) :
  key_eqb k k' = true <->
  (k.1.1 == k'.1.1 /\ k.1.2 == k'.1.2 /\ k.2 == k'.2)%Q.
Proof.
  destruct k as [[r g] b], k' as [[r' g'] b']. simpl.
  rewrite !andb_true_iff, !Qeq_bool_iff. tauto.
Qed.



Lemma key_eqb_trans k1 k2 k3 :
  key_eqb k1 k2 = true -> key_eqb k2 k3 = true -> key_eqb k1 k3 = true.
Proof.
  rewrite !key_eqb_true. intros (H1 & H2 & H3) (H4 & H5 & H6).
  repeat split; etransitivity; eassumption.
Qed.




































Definition pick_checker : operator :=
  {| filepath := "checker.png"; scale := 1; skip_transparent := true |}.


















Lemma pixels_for_each_raises {A S} (f : S -> A -> result S) (e : exn) l a0 :
  (forall s a, a ∈ l -> (exists s', f s a = Returns s') \/ f s a = Raises e) ->
  a0 ∈ l -> (forall s, f s a0 = Raises e) ->
  forall s, for_each f l s = Raises e.
Proof.
  induction l as [|a l IH]; intros Hf Hin Ha0 s.
  - apply elem_of_nil in Hin. destruct Hin.
  - simpl. destruct (Hf s a) as [[s' Hs]|Hs]; [apply elem_of_cons; auto| |].
    + rewrite Hs. simpl. apply elem_of_cons in Hin as [->|Hin].
      * rewrite Ha0 in Hs. discriminate.
      * apply IH; [|exact Hin|exact Ha0].
        intros s0 a1 Hin1. apply Hf. apply elem_of_cons; auto.
    + rewrite Hs. reflexivity.
Qed.

Lemma unpack4_cases (l : list Q) :
  (exists p, unpack4 l = Returns p) \/ unpack4 l = Raises ValueError.
Proof.
  destruct (decide (length l = 4%nat)) as [H|H].
  - left. apply unpack4_returns, H.
  - right. apply unpack4_raises, H.
Qed.

(** X30.  A buffer with fewer than four floats per pixel stops the operator
    with a [ValueError] while it collects the colors: the slice of some
    pixel is too short to unpack, and nothing is created. *)
Theorem pixel_cubes_short_buffer op images_load img :
  filepath op <> "" ->
  images_load (filepath op) = Loaded img ->
  0 < (size img).1 -> 0 < (size img).2 ->
  Z.of_nat (length (pixels img)) < 4 * (size img).1 * (size img).2 ->
  execute op images_load = Raises ValueError.
Proof.
  intros Hf Hl Hw Hh Hlen. unfold execute.
  destruct (String.eqb_spec (filepath op) ""); [congruence|].
  rewrite Hl. destruct (size img) as [w h] eqn:Hs. simpl in Hw, Hh, Hlen.
  destruct (Z.eqb_spec w 0); [lia|]. destruct (Z.eqb_spec h 0); [lia|].
  simpl orb. cbv iota. rewrite for_pixels_scan.
  rewrite (pixels_for_each_raises _ ValueError (scan w h) (w - 1, h - 1));
    [reflexivity| | |].
  - intros st [i j] _. simpl. unfold collect_color, read_pixel.
    destruct (unpack4_cases (take 4 (drop (Z.to_nat ((j * w + i) * 4)) (pixels img))))
      as [[[[[r g] b] a] ->]| ->]; [|auto].
    simpl. left. destruct (transparent op a); [eauto|].
    destruct (dict_get _ _); eauto.
  - apply elem_of_scan. lia.
  - intros st. simpl. unfold collect_color, read_pixel.
    rewrite unpack4_raises; [reflexivity|].
    rewrite length_take, length_drop.
    assert (H1 : ((h - 1) * w + (w - 1)) * 4 = 4 * w * h - 4) by ring.
    assert (H0 : 0 <= 4 * w * h - 4) by nia.
    rewrite H1. lia.
Qed.

(** The 2 x 2 image with the last float of its buffer missing. *)
Definition clipped : image :=
  {| size := (2, 2);
     pixels := [1; 0; 0; 1;  0; 0; 1; 1;
                1; 0; 0; 1;  0; 1; 0]%Q |}.

Lemma pixel_cubes_short_buffer_witness :
  execute pick_checker (fun _ => Loaded clipped) = Raises ValueError.
Proof.
  apply (pixel_cubes_short_buffer pick_checker (fun _ => Loaded clipped) clipped).
  - discriminate.
  - reflexivity.
  - simpl. lia.
  - simpl. lia.
  - simpl. lia.
Defined.

End PixelCubesFacts.
